(** * Multi-dataset batch samplers (sentence_transformers/sampler.py)

    A shallow embedding of [RoundRobinBatchSampler] and
    [ProportionalBatchSampler], together with the parts of Python and of
    [torch.utils.data] that their code calls, and the properties of the
    schedulers that follow from the code. *)

From Stdlib Require Import String ZArith Arith List Bool Lia Permutation.
Import ListNotations.
Open Scope Z_scope.

(** ** Python values and exceptions *)

Inductive exn : Type :=
| ValueError
| ZeroDivisionError
| IndexError
| RuntimeError.

Inductive result (A : Type) : Type :=
| Ok (a : A)
| Raise (e : exn).

Arguments Ok {A} a.
Arguments Raise {A} e.

Definition bind {A B : Type} (r : result A) (k : A -> result B) : result B :=
  match r with
  | Ok a => k a
  | Raise e => Raise e
  end.

Notation "x <- r ;; k" := (bind r (fun x => k))
  (at level 61, r at next level, right associativity).

(** [a // b] on Python integers: floor division, [ZeroDivisionError] when the
    divisor is zero.  [Z.div] rounds towards minus infinity as Python does. *)
Definition floordiv (a b : Z) : result Z :=
  if b =? 0 then Raise ZeroDivisionError else Ok (a / b).

(** A list comprehension whose element expression may raise: the first
    exception aborts the comprehension. *)
Fixpoint comprehension {A B : Type} (f : A -> result B) (l : list A) : result (list B) :=
  match l with
  | [] => Ok []
  | x :: r => y <- f x ;; ys <- comprehension f r ;; Ok (y :: ys)
  end.

(** [min(list)]: [ValueError] on an empty list. *)
Definition py_min (l : list Z) : result Z :=
  match l with
  | [] => Raise ValueError
  | x :: r => Ok (fold_left Z.min r x)
  end.

(** [sum(list)]. *)
Definition py_sum (l : list Z) : Z := fold_left Z.add l 0.

(** [range(start, stop)], empty when [stop <= start]. *)
Definition py_range (start stop : Z) : list Z :=
  map (fun k => start + Z.of_nat k) (seq 0 (Z.to_nat (stop - start))).

(** [itertools.accumulate]: the running totals, starting from the first
    element itself. *)
Fixpoint accumulate_from (total : Z) (l : list Z) : list Z :=
  match l with
  | [] => []
  | x :: r => (total + x) :: accumulate_from (total + x) r
  end.

Definition accumulate (l : list Z) : list Z :=
  match l with
  | [] => []
  | x :: r => x :: accumulate_from x r
  end.

(** [zip] is [List.combine].  In-place update of one slot of a list of
    iterator objects: *)
Fixpoint update {A : Type} (i : nat) (x : A) (l : list A) {struct l} : list A :=
  match l with
  | [] => []
  | y :: r =>
      match i with
      | O => x :: r
      | S j => y :: update j x r
      end
  end.

(** ** torch: the seeded generator and the two library samplers

    [torch.Generator] is a library object: a state, the state a seed
    leads to, and [torch.randperm(n, generator=g)], which returns a
    permutation of [0..n-1] and advances the state. *)

Record Generator : Type := {
  gstate : Type;
  seed_state : Z -> gstate;
  randperm : gstate -> nat -> list nat * gstate
}.

(** [g.manual_seed(z)]: the library reads the seed as a 64-bit integer,
    unsigned or signed, and raises [ValueError] for an integer that is
    neither, that is outside [-2^63, 2^64 - 1]. *)
Definition seed_accepted (z : Z) : bool :=
  (- 2 ^ 63 <=? z) && (z <=? 2 ^ 64 - 1).

Definition manual_seed (G : Generator) (z : Z) : result (gstate G) :=
  if seed_accepted z then Ok (seed_state G z) else Raise ValueError.

Definition randperm_permutes (G : Generator) : Prop :=
  forall g n, Permutation (fst (randperm G g n)) (seq 0 n).

(** [SubsetRandomSampler(indices, generator=g).__iter__]:
    [for i in torch.randperm(len(indices), generator=g): yield indices[i]].
    The permutation is drawn when the iterator is first advanced. *)
Definition SubsetRandomSampler_iter {A : Type} (G : Generator) (d : A)
    (indices : list A) (g : gstate G) : list A * gstate G :=
  let (p, g') := randperm G g (length indices) in
  (map (fun i => nth i indices d) p, g').

(** The iterator of a [BatchSampler] over one dataset's range.  It is a
    Python generator: [Fresh] until first advanced (the underlying sampler
    has not been iterated, so no permutation has been drawn yet), then
    [Running] on the indices the underlying sampler has still to give,
    then [Exhausted]. *)
Inductive batcher : Type :=
| Fresh (start stop : Z)
| Running (rest : list Z)
| Exhausted.

(** One group of at most [bsz] indices: a full group when there is one,
    else the shorter last group unless [drop_last]. *)
Definition pull (drop_last : bool) (bsz : nat) (rest : list Z) : option (list Z) * batcher :=
  if (bsz <=? length rest)%nat then (Some (firstn bsz rest), Running (skipn bsz rest))
  else match rest with
       | [] => (None, Exhausted)
       | _ :: _ => if drop_last then (None, Exhausted) else (Some rest, Running [])
       end.

(** [next(batch_sampler_iterator)]; [None] is [StopIteration]. *)
Definition batcher_next (G : Generator) (shuffle drop_last : bool) (bsz : nat)
    (b : batcher) (g : gstate G) : option (list Z) * batcher * gstate G :=
  match b with
  | Fresh start stop =>
      let (idxs, g') :=
        if shuffle then SubsetRandomSampler_iter G 0 (py_range start stop) g
        else (py_range start stop, g) in
      (pull drop_last bsz idxs, g')
  | Running rest => (pull drop_last bsz rest, g)
  | Exhausted => (None, Exhausted, g)
  end.

(** [len(BatchSampler(sampler, batch_size, drop_last))] where [sampler] has
    [n] elements. *)
Definition BatchSampler_len (drop_last : bool) (batch_size : Z) (n : Z) : Z :=
  if drop_last then n / batch_size else (n + batch_size - 1) / batch_size.

(** ** The trainer the samplers report to

    [self.trainer] refers to an object the sampler does not own.  Its state
    is threaded next to the iterator state; [None] is [trainer=None]. *)

Record Trainer : Type := {
  training_with_dataset_dict : bool;
  dataset_names : list string;
  dataset_name : string
}.

Definition set_dataset_name (t : Trainer) (name : string) : Trainer :=
  {| training_with_dataset_dict := training_with_dataset_dict t;
     dataset_names := dataset_names t;
     dataset_name := name |}.

(** [if self.trainer and self.trainer.training_with_dataset_dict:
       self.trainer.dataset_name = self.trainer.dataset_names[dataset_idx]] *)
Definition notify (tr : option Trainer) (dataset_idx : nat) : result (option Trainer) :=
  match tr with
  | None => Ok None
  | Some t =>
      if training_with_dataset_dict t then
        match nth_error (dataset_names t) dataset_idx with
        | Some name => Ok (Some (set_dataset_name t name))
        | None => Raise IndexError
        end
      else Ok (Some t)
  end.

(** ** The sampler objects

    Both classes store the same attributes. *)

Record Sampler : Type := {
  lengths : list Z;
  ranges : list (Z * Z);
  seed : Z;
  shuffle : bool;
  drop_last : bool;
  batch_size : Z;
  epoch : Z
}.

(** The body shared by the two [__init__] methods: the attributes are
    assigned and nothing is checked.  [self.trainer = trainer] keeps a
    reference only; the trainer's state stays outside the record and is
    handed to each [next]. *)
Definition construct (lengths : list Z) (batch_size : Z) (drop_last : bool)
    (seed : Z) (shuffle : bool) (trainer : option Trainer) : result Sampler :=
  let accumulated := accumulate lengths in
  Ok {| lengths := lengths;
        ranges := combine (0 :: accumulated) accumulated;
        seed := seed;
        shuffle := shuffle;
        drop_last := drop_last;
        batch_size := batch_size;
        epoch := 0 |}.

Definition with_epoch (s : Sampler) (e : Z) : Sampler :=
  {| lengths := lengths s;
     ranges := ranges s;
     seed := seed s;
     shuffle := shuffle s;
     drop_last := drop_last s;
     batch_size := batch_size s;
     epoch := e |}.

(** The list comprehension that builds one [BatchSampler] per range.  The
    library constructor raises [ValueError] for a batch size that is not
    positive; with no range no constructor runs. *)
Definition make_batch_samplers (s : Sampler) : result (list batcher) :=
  comprehension
    (fun r : Z * Z =>
       if batch_size s <=? 0 then Raise ValueError else Ok (Fresh (fst r) (snd r)))
    (ranges s).

(** What a call of [next] on a generator object gives its consumer. *)
Inductive signal : Type :=
| Yield (batch : list Z)
| StopIteration
| Error (e : exn).

(** How a pass driven to its end (or to the end of the fuel) finished. *)
Inductive ending : Type :=
| Completed
| Failed (e : exn)
| Pending.

(** A consumer that calls [next] until the generator stops, and records
    each batch with the dataset it was pulled from. *)
Fixpoint drive {St : Type}
    (next : St -> option Trainer -> signal * St * option Trainer)
    (tag : St -> nat) (fuel : nat) (st : St) (tr : option Trainer)
    : list (list Z * nat) * ending * St * option Trainer :=
  match fuel with
  | O => ([], Pending, st, tr)
  | S fuel' =>
      match next st tr with
      | (Yield batch, st', tr') =>
          let '(out, e, st'', tr'') := drive next tag fuel' st' tr' in
          ((batch, tag st') :: out, e, st'', tr'')
      | (StopIteration, st', tr') => ([], Completed, st', tr')
      | (Error e, st', tr') => ([], Failed e, st', tr')
      end
  end.

Module RoundRobinBatchSampler.

Definition __init__ := construct.

Definition set_epoch := with_epoch.

(** The generator object made by [__iter__]: not yet started, suspended at
    the [yield] for [dataset_idx], or finished. *)
Inductive gen (G : Generator) : Type :=
| Created
| Suspended (g : gstate G) (batch_samplers : list batcher) (dataset_idx : nat)
| Closed.

Arguments Created {G}.
Arguments Suspended {G} g batch_samplers dataset_idx.
Arguments Closed {G}.

Definition __iter__ (G : Generator) (s : Sampler) : gen G := Created.

Definition source {G : Generator} (st : gen G) : nat :=
  match st with
  | Suspended _ _ dataset_idx => dataset_idx
  | _ => O
  end.

(** The [try] block up to the [yield]: advance the batch sampler of
    [dataset_idx]; [StopIteration] from it breaks the loop and ends the
    generator. *)
Definition body (G : Generator) (s : Sampler) (g : gstate G)
    (batch_samplers : list batcher) (dataset_idx : nat) : signal * gen G :=
  match nth_error batch_samplers dataset_idx with
  | None => (Error IndexError, Closed)
  | Some b =>
      match batcher_next G (shuffle s) (drop_last s) (Z.to_nat (batch_size s)) b g with
      | (Some batch, b', g') =>
          (Yield batch, Suspended g' (update dataset_idx b' batch_samplers) dataset_idx)
      | (None, _, _) => (StopIteration, Closed)
      end
  end.

(** One call of [next] on the generator.  A new generator first seeds
    [g], which may raise, and then builds the batch samplers.  A started
    generator resumes after its [yield]: it first runs the trainer update
    for the batch it yielded last, then moves to the next index of
    [cycle(range(n))]. *)
Definition next (G : Generator) (s : Sampler) (st : gen G) (tr : option Trainer)
    : signal * gen G * option Trainer :=
  match st with
  | Created =>
      match manual_seed G (seed s + epoch s) with
      | Raise e => (Error e, Closed, tr)
      | Ok g =>
          match make_batch_samplers s with
          | Raise e => (Error e, Closed, tr)
          | Ok [] => (StopIteration, Closed, tr)
          | Ok batch_samplers => (body G s g batch_samplers 0, tr)
          end
      end
  | Suspended g batch_samplers dataset_idx =>
      match notify tr dataset_idx with
      | Raise e => (Error e, Closed, tr)
      | Ok tr' =>
          (body G s g batch_samplers (S dataset_idx mod length batch_samplers)%nat, tr')
      end
  | Closed => (StopIteration, Closed, tr)
  end.

(** One pass, driven by a consumer from a new generator. *)
Definition pass (G : Generator) (s : Sampler) (fuel : nat) (tr : option Trainer) :=
  drive (next G s) source fuel (__iter__ G s) tr.

Definition __len__ (s : Sampler) : result Z :=
  if drop_last s then
    counts <- comprehension (fun length => floordiv length (batch_size s)) (lengths s) ;;
    m <- py_min counts ;;
    Ok (m * Z.of_nat (length (lengths s)))
  else
    counts <- comprehension
                (fun length => floordiv (length + batch_size s - 1) (batch_size s))
                (lengths s) ;;
    m <- py_min counts ;;
    Ok (m * Z.of_nat (length (lengths s))).

End RoundRobinBatchSampler.

Module ProportionalBatchSampler.

Definition __init__ := construct.

Definition set_epoch := with_epoch.

(** The generator object made by [__iter__]; [draws] is what the iterator
    of the draw sampler has still to give. *)
Inductive gen (G : Generator) : Type :=
| Created
| Suspended (g : gstate G) (batch_samplers : list batcher) (draws : list nat)
    (dataset_idx : nat)
| Closed.

Arguments Created {G}.
Arguments Suspended {G} g batch_samplers draws dataset_idx.
Arguments Closed {G}.

Definition __iter__ (G : Generator) (s : Sampler) : gen G := Created.

Definition source {G : Generator} (st : gen G) : nat :=
  match st with
  | Suspended _ _ _ dataset_idx => dataset_idx
  | _ => O
  end.

(** [indices = [idx for idx, length in enumerate(lengths) for _ in range(length)]] *)
Fixpoint weighted_from (idx : nat) (counts : list Z) : list nat :=
  match counts with
  | [] => []
  | c :: r => repeat idx (Z.to_nat c) ++ weighted_from (S idx) r
  end.

Definition weighted (counts : list Z) : list nat := weighted_from 0 counts.

(** [len(sampler)] for each batch sampler: the underlying sampler has as
    many elements as its range. *)
Definition batch_counts (s : Sampler) : list Z :=
  map (fun r : Z * Z =>
         BatchSampler_len (drop_last s) (batch_size s)
           (Z.of_nat (length (py_range (fst r) (snd r)))))
      (ranges s).

(** The loop head and the [yield] expression: take the next draw and
    advance that dataset's batch sampler.  There is no [try] here, so a
    [StopIteration] from the batch sampler leaves the generator as a
    [RuntimeError]. *)
Definition body (G : Generator) (s : Sampler) (g : gstate G)
    (batch_samplers : list batcher) (draws : list nat) : signal * gen G :=
  match draws with
  | [] => (StopIteration, Closed)
  | dataset_idx :: draws' =>
      match nth_error batch_samplers dataset_idx with
      | None => (Error IndexError, Closed)
      | Some b =>
          match batcher_next G (shuffle s) (drop_last s) (Z.to_nat (batch_size s)) b g with
          | (Some batch, b', g') =>
              (Yield batch,
               Suspended g' (update dataset_idx b' batch_samplers) draws' dataset_idx)
          | (None, _, _) => (Error RuntimeError, Closed)
          end
      end
  end.

Definition next (G : Generator) (s : Sampler) (st : gen G) (tr : option Trainer)
    : signal * gen G * option Trainer :=
  match st with
  | Created =>
      match manual_seed G (seed s + epoch s) with
      | Raise e => (Error e, Closed, tr)
      | Ok g0 =>
          match make_batch_samplers s with
          | Raise e => (Error e, Closed, tr)
          | Ok batch_samplers =>
              let indices := weighted (batch_counts s) in
              let (draws, g) := SubsetRandomSampler_iter G O indices g0 in
              (body G s g batch_samplers draws, tr)
          end
      end
  | Suspended g batch_samplers draws dataset_idx =>
      match notify tr dataset_idx with
      | Raise e => (Error e, Closed, tr)
      | Ok tr' => (body G s g batch_samplers draws, tr')
      end
  | Closed => (StopIteration, Closed, tr)
  end.

Definition pass (G : Generator) (s : Sampler) (fuel : nat) (tr : option Trainer) :=
  drive (next G s) source fuel (__iter__ G s) tr.

Definition __len__ (s : Sampler) : result Z :=
  if drop_last s then
    counts <- comprehension (fun length => floordiv length (batch_size s)) (lengths s) ;;
    Ok (py_sum counts)
  else
    counts <- comprehension
                (fun length => floordiv (length + batch_size s - 1) (batch_size s))
                (lengths s) ;;
    Ok (py_sum counts).

End ProportionalBatchSampler.

(** ** Two generators to run the samplers on

    [rotating]: the permutation of [0..n-1] rotated left by the state, the
    state advanced by one.  [reversing]: the reversed order, whatever the
    state. *)

Definition rotate {A : Type} (k : nat) (l : list A) : list A :=
  skipn k l ++ firstn k l.

Definition rotating : Generator := {|
  gstate := Z;
  seed_state := fun z => z;
  randperm := fun g n => (rotate (Z.to_nat (g mod Z.of_nat n)) (seq 0 n), g + 1)
|}.

Definition reversing : Generator := {|
  gstate := Z;
  seed_state := fun z => z;
  randperm := fun g n => (rev (seq 0 n), g + 1)
|}.

(** ** Auxiliary definitions for the statements *)

(** The ranges that [__init__] computes, as a function of the lengths. *)
Definition partition (l : list Z) : list (Z * Z) :=
  combine (0 :: accumulate l) (accumulate l).

(** How many groups a batch sampler's iterator gives over [n] indices. *)
Definition group_count (drop_last : bool) (bsz n : nat) : nat :=
  if drop_last then (n / bsz)%nat else ((n + bsz - 1) / bsz)%nat.

(** How many groups an iterator has still to give. *)
Definition remaining (drop_last : bool) (bsz : nat) (b : batcher) : nat :=
  match b with
  | Fresh start stop => group_count drop_last bsz (length (py_range start stop))
  | Running rest => group_count drop_last bsz (length rest)
  | Exhausted => O
  end.

(** A consumer that advances one batch sampler's iterator until it stops. *)
Fixpoint drain (G : Generator) (shuffle drop_last : bool) (bsz : nat) (fuel : nat)
    (b : batcher) (g : gstate G) : list (list Z) * batcher * gstate G :=
  match fuel with
  | O => ([], b, g)
  | S fuel' =>
      match batcher_next G shuffle drop_last bsz b g with
      | (Some batch, b', g') =>
          let '(out, b'', g'') := drain G shuffle drop_last bsz fuel' b' g' in
          (batch :: out, b'', g'')
      | (None, b', g') => ([], b', g')
      end
  end.

(** The [k]-th group of [bsz] consecutive elements of a list. *)
Definition group_at (bsz : nat) (l : list Z) (k : nat) : list Z :=
  firstn bsz (skipn (k * bsz) l).

(** The sampler object a constructor call leaves, for running examples. *)
Definition built (r : result Sampler) : Sampler :=
  match r with
  | Ok s => s
  | Raise _ =>
      {| lengths := []; ranges := []; seed := 0; shuffle := false;
         drop_last := false; batch_size := 1; epoch := 0 |}
  end.

(** What the consumer can see after one [next]: the signal, the dataset
    the generator is suspended on, and the trainer's name slot. *)
Definition seen {St : Type} (tag : St -> nat)
    (r : signal * St * option Trainer) : signal * nat * option string :=
  let '(sig, st, tr) := r in (sig, tag st, option_map dataset_name tr).

(** The parts of what [drive] returns. *)
Definition yielded {St : Type}
    (r : list (list Z * nat) * ending * St * option Trainer) : list (list Z * nat) :=
  fst (fst (fst r)).

Definition ended {St : Type}
    (r : list (list Z * nat) * ending * St * option Trainer) : ending :=
  snd (fst (fst r)).

Definition final_state {St : Type}
    (r : list (list Z * nat) * ending * St * option Trainer) : St :=
  snd (fst r).

Definition final_trainer {St : Type}
    (r : list (list Z * nat) * ending * St * option Trainer) : option Trainer :=
  snd r.

(** The dataset served at position [k] of a strict rotation over [n]. *)
Definition rotation (n : nat) (k : nat) : nat := (k mod n)%nat.

(** The trainer update cannot fail for dataset indices below [n]: no
    trainer, notification off, or at least [n] names. *)
Definition notifier_safe (n : nat) (tr : option Trainer) : bool :=
  match tr with
  | None => true
  | Some t => negb (training_with_dataset_dict t) || (n <=? length (dataset_names t))%nat
  end.

(** Two trainer states under which a pass over [n] datasets takes the same
    course: the same state, or two states that both cannot fail. *)
Definition same_course (n : nat) (tr1 tr2 : option Trainer) : Prop :=
  tr1 = tr2 \/ (notifier_safe n tr1 = true /\ notifier_safe n tr2 = true).

(** Two calls of [next], on two generators, that the consumer cannot tell
    apart: the same signal, the same batch from the same dataset, and
    states related by [R] to go on from. *)
Definition in_step {St1 St2 : Type} (tag1 : St1 -> nat) (tag2 : St2 -> nat)
    (R : St1 -> option Trainer -> St2 -> option Trainer -> Prop)
    (r1 : signal * St1 * option Trainer)
    (r2 : signal * St2 * option Trainer) : Prop :=
  match r1, r2 with
  | (Yield b1, st1, tr1), (Yield b2, st2, tr2) =>
      b1 = b2 /\ tag1 st1 = tag2 st2 /\ R st1 tr1 st2 tr2
  | (StopIteration, _, _), (StopIteration, _, _) => True
  | (Error e1, _, _), (Error e2, _, _) => e1 = e2
  | _, _ => False
  end.

(** Two samplers that differ at most in seed and epoch, both with a sum
    the generator accepts or both not, and not in the sum itself when the
    shuffle flag is set. *)
Definition same_schedule (s1 s2 : Sampler) : Prop :=
  ranges s1 = ranges s2 /\ shuffle s1 = shuffle s2 /\
  drop_last s1 = drop_last s2 /\ batch_size s1 = batch_size s2 /\
  seed_accepted (seed s1 + epoch s1) = seed_accepted (seed s2 + epoch s2) /\
  (shuffle s1 = true -> seed s1 + epoch s1 = seed s2 + epoch s2).

(** Round-robin generator states that differ at most in the state of a
    generator that is never read. *)
Definition rr_alike (G : Generator) (s : Sampler)
    (st1 st2 : RoundRobinBatchSampler.gen G) : Prop :=
  match st1, st2 with
  | RoundRobinBatchSampler.Created, RoundRobinBatchSampler.Created => True
  | RoundRobinBatchSampler.Suspended g1 bss1 i1,
    RoundRobinBatchSampler.Suspended g2 bss2 i2 =>
      bss1 = bss2 /\ i1 = i2 /\ (shuffle s = true -> g1 = g2) /\
      length bss1 = length (ranges s) /\ (i1 < length bss1)%nat
  | RoundRobinBatchSampler.Closed, RoundRobinBatchSampler.Closed => True
  | _, _ => False
  end.

Definition rr_related (G : Generator) (s : Sampler)
    (st1 : RoundRobinBatchSampler.gen G) (tr1 : option Trainer)
    (st2 : RoundRobinBatchSampler.gen G) (tr2 : option Trainer) : Prop :=
  rr_alike G s st1 st2 /\ same_course (length (ranges s)) tr1 tr2.

(** Two samplers that agree on ranges, flags and batch size, and on the
    sum of seed and epoch. *)
Definition same_seeding (s1 s2 : Sampler) : Prop :=
  ranges s1 = ranges s2 /\ shuffle s1 = shuffle s2 /\
  drop_last s1 = drop_last s2 /\ batch_size s1 = batch_size s2 /\
  seed s1 + epoch s1 = seed s2 + epoch s2.

Definition prop_related (G : Generator) (s : Sampler)
    (st1 : ProportionalBatchSampler.gen G) (tr1 : option Trainer)
    (st2 : ProportionalBatchSampler.gen G) (tr2 : option Trainer) : Prop :=
  st1 = st2 /\
  match st1 with
  | ProportionalBatchSampler.Suspended _ bss _ i =>
      length bss = length (ranges s) /\ (i < length bss)%nat
  | _ => True
  end /\
  same_course (length (ranges s)) tr1 tr2.

(** The batches a pass yielded from dataset [i], in order. *)
Definition batches_of (i : nat) (out : list (list Z * nat)) : list (list Z) :=
  map fst (filter (fun x => (snd x =? i)%nat) out).

(** [ys] is every batch of a dataset whose indices are [rng]: the groups of
    some arrangement [p] of [rng], each once and in order; without
    shuffling the arrangement is [rng] itself. *)
Definition all_groups (shuffle drop_last : bool) (bsz : nat) (rng : list Z)
    (ys : list (list Z)) : Prop :=
  exists p, Permutation p rng /\ (shuffle = false -> p = rng) /\
            ys = map (group_at bsz p) (seq 0 (group_count drop_last bsz (length rng))).

(** What holds of a dataset's batch sampler [b] in the middle of a pass
    that has yielded [ys] from it so far. *)
Definition dataset_inv (shuffle drop_last : bool) (bsz : nat) (rng : list Z)
    (b : batcher) (ys : list (list Z)) : Prop :=
  exists p, Permutation p rng /\ (shuffle = false -> p = rng) /\
    (length ys + remaining drop_last bsz b = group_count drop_last bsz (length rng))%nat /\
    ys = map (group_at bsz p) (seq 0 (length ys)) /\
    match b with
    | Fresh start stop => py_range start stop = rng /\ ys = []
    | Running rest => rest = skipn (length ys * bsz) p
    | Exhausted => False
    end.

(** The state of a proportional pass: every draw still to come has a batch
    waiting for it, and each batch sampler is where its dataset's yielded
    batches say. *)
Definition prop_inv (s : Sampler) (bss : list batcher) (draws : list nat)
    (out : list (list Z * nat)) : Prop :=
  length bss = length (ranges s) /\
  Forall (fun i => (i < length (ranges s))%nat) draws /\
  forall i a b bi,
    nth_error (ranges s) i = Some (a, b) ->
    nth_error bss i = Some bi ->
    count_occ Nat.eq_dec draws i
      = remaining (drop_last s) (Z.to_nat (batch_size s)) bi /\
    dataset_inv (shuffle s) (drop_last s) (Z.to_nat (batch_size s))
      (py_range a b) bi (batches_of i out).

(** How many turns dataset [i] is away when it is the turn of dataset [p],
    in a rotation over [n] datasets. *)
Definition turns_away (n i p : nat) : nat :=
  if (p <=? i)%nat then (i - p)%nat else (i + n - p)%nat.

(** ** Further notions for properties of whole passes *)

(** A batch that is not empty, holds at most [bsz] indices, and holds
    exactly [bsz] under drop_last. *)
Definition well_sized (drop_last : bool) (bsz : nat) (batch : list Z) : Prop :=
  (0 < length batch <= bsz)%nat /\ (drop_last = true -> length batch = bsz).

(** What a pass has yielded from dataset [i], whose range is [(a, b)], at
    any moment: the first groups, in order and without gaps, of one
    arrangement of the range (the range itself without shuffling). *)
Definition served_in_order (s : Sampler) (out : list (list Z * nat)) : Prop :=
  Forall (fun x => (snd x < length (ranges s))%nat) out /\
  forall i a b,
    nth_error (ranges s) i = Some (a, b) ->
    exists p,
      Permutation p (py_range a b) /\
      (shuffle s = false -> p = py_range a b) /\
      batches_of i out
        = map (group_at (Z.to_nat (batch_size s)) p) (seq 0 (length (batches_of i out))) /\
      (length (batches_of i out)
       <= group_count (drop_last s) (Z.to_nat (batch_size s)) (length (py_range a b)))%nat.

(** The batch samplers of a running pass agree with what was yielded. *)
Definition batchers_inv (s : Sampler) (bss : list batcher)
    (out : list (list Z * nat)) : Prop :=
  length bss = length (ranges s) /\
  Forall (fun x => (snd x < length (ranges s))%nat) out /\
  forall i a b bi,
    nth_error (ranges s) i = Some (a, b) ->
    nth_error bss i = Some bi ->
    dataset_inv (shuffle s) (drop_last s) (Z.to_nat (batch_size s))
      (py_range a b) bi (batches_of i out).

Definition rr_sound (G : Generator) (s : Sampler)
    (st : RoundRobinBatchSampler.gen G) (tr : option Trainer)
    (out : list (list Z * nat)) : Prop :=
  match st with
  | RoundRobinBatchSampler.Created => out = []
  | RoundRobinBatchSampler.Suspended _ bss _ => batchers_inv s bss out
  | RoundRobinBatchSampler.Closed => served_in_order s out
  end.

Definition prop_sound (G : Generator) (s : Sampler)
    (st : ProportionalBatchSampler.gen G) (tr : option Trainer)
    (out : list (list Z * nat)) : Prop :=
  match st with
  | ProportionalBatchSampler.Created => out = []
  | ProportionalBatchSampler.Suspended _ bss _ _ => batchers_inv s bss out
  | ProportionalBatchSampler.Closed => served_in_order s out
  end.

(** All indices a pass yielded, in the order yielded, and regrouped by
    dataset. *)
Definition indices_of (out : list (list Z * nat)) : list Z :=
  concat (map fst out).

Definition by_dataset (n : nat) (out : list (list Z * nat)) : list Z :=
  flat_map (fun i => concat (batches_of i out)) (seq 0 n).

(** Whether a generator is suspended at its [yield]. *)
Definition rr_suspended {G : Generator} (st : RoundRobinBatchSampler.gen G) : bool :=
  match st with
  | RoundRobinBatchSampler.Suspended _ _ _ => true
  | _ => false
  end.

Definition prop_suspended {G : Generator} (st : ProportionalBatchSampler.gen G) : bool :=
  match st with
  | ProportionalBatchSampler.Suspended _ _ _ _ => true
  | _ => false
  end.

(** A generator whose [next] runs the trainer update exactly when resumed
    after a [yield], and touches the trainer in no other way. *)
Definition resumes_with_update {St : Type}
    (next : St -> option Trainer -> signal * St * option Trainer)
    (tag : St -> nat) (suspended : St -> bool) : Prop :=
  (forall st tr batch st' tr',
     next st tr = (Yield batch, st', tr') -> suspended st' = true) /\
  (forall st tr, suspended st = false -> snd (next st tr) = tr) /\
  (forall st tr, suspended st = true ->
     match notify tr (tag st) with
     | Ok tr' => snd (next st tr) = tr'
     | Raise e => next st tr = (Error e, snd (fst (next st tr)), tr)
     end).

(** A trainer with notification switched on. *)
Definition active (tr : option Trainer) : Prop :=
  exists t, tr = Some t /\ training_with_dataset_dict t = true.

(** The name list a trainer carries; empty without a trainer. *)
Definition names_of (tr : option Trainer) : list string :=
  match tr with
  | Some t => dataset_names t
  | None => []
  end.

(** What a pass may change about the trainer: only the name slot, and
    that only when notification is on. *)
Definition only_slot_written (tr tr' : option Trainer) : Prop :=
  match tr, tr' with
  | None, None => True
  | Some t, Some t' =>
      training_with_dataset_dict t' = training_with_dataset_dict t /\
      dataset_names t' = dataset_names t /\
      (training_with_dataset_dict t = false -> t' = t)
  | _, _ => False
  end.

(** ** Sums, running totals and ranges *)

Lemma fold_add_shift (l : list Z) (a : Z) :
  fold_left Z.add l a = a + fold_left Z.add l 0.
Proof.
  revert a. induction l as [|x r IH]; intro a; simpl.
  - lia.
  - rewrite (IH (a + x)), (IH x). lia.
Qed.

Lemma py_sum_cons (x : Z) (l : list Z) : py_sum (x :: l) = x + py_sum l.
Proof. unfold py_sum. simpl. apply fold_add_shift. Qed.

Lemma py_sum_nonneg (l : list Z) : Forall (fun x => 0 <= x) l -> 0 <= py_sum l.
Proof.
  induction 1 as [|x r Hx _ IH].
  - unfold py_sum. simpl. lia.
  - rewrite py_sum_cons. lia.
Qed.

Lemma accumulate_from_length (l : list Z) (t : Z) :
  length (accumulate_from t l) = length l.
Proof. revert t. induction l; intro t; simpl; auto. Qed.

Lemma accumulate_shift (l : list Z) : accumulate l = accumulate_from 0 l.
Proof. destruct l; reflexivity. Qed.

Lemma accumulate_from_nth (l : list Z) (t : Z) (i : nat) :
  (i < length l)%nat ->
  nth_error (accumulate_from t l) i = Some (t + py_sum (firstn (S i) l)).
Proof.
  revert t i. induction l as [|x r IH]; intros t i Hi; simpl in Hi.
  - lia.
  - destruct i as [|i].
    + unfold py_sum. simpl. f_equal; lia.
    + change (nth_error (accumulate_from (t + x) r) i
              = Some (t + py_sum (x :: firstn (S i) r))).
      rewrite IH by lia. rewrite py_sum_cons. f_equal. lia.
Qed.

Lemma nth_error_combine {A B : Type} (l1 : list A) (l2 : list B) (i : nat) :
  nth_error (combine l1 l2) i =
  match nth_error l1 i, nth_error l2 i with
  | Some a, Some b => Some (a, b)
  | _, _ => None
  end.
Proof.
  revert l2 i. induction l1 as [|a r IH]; intros l2 i.
  - destruct i; reflexivity.
  - destruct l2 as [|b r2].
    + destruct i; simpl; [reflexivity|]. destruct (nth_error r i); reflexivity.
    + destruct i; simpl; [reflexivity | apply IH].
Qed.

Lemma partition_length (l : list Z) : length (partition l) = length l.
Proof.
  unfold partition. rewrite length_combine, accumulate_shift. cbn [length].
  rewrite accumulate_from_length. lia.
Qed.

Lemma partition_nth (l : list Z) (i : nat) :
  (i < length l)%nat ->
  nth_error (partition l) i = Some (py_sum (firstn i l), py_sum (firstn (S i) l)).
Proof.
  intro Hi. unfold partition. rewrite nth_error_combine, accumulate_shift.
  rewrite (accumulate_from_nth l 0 i Hi).
  destruct i as [|i].
  - simpl. reflexivity.
  - change (nth_error (0 :: accumulate_from 0 l) (S i))
      with (nth_error (accumulate_from 0 l) i).
    rewrite accumulate_from_nth by lia. reflexivity.
Qed.

Lemma partition_nth_inv (l : list Z) (i : nat) (a b : Z) :
  nth_error (partition l) i = Some (a, b) ->
  (i < length l)%nat /\ a = py_sum (firstn i l) /\ b = py_sum (firstn (S i) l).
Proof.
  intro H.
  assert (Hi : (i < length l)%nat).
  { rewrite <- partition_length. apply nth_error_Some. congruence. }
  rewrite partition_nth in H by exact Hi. inversion H. auto.
Qed.

Lemma prefix_step (l : list Z) (i : nat) :
  Forall (fun x => 0 <= x) l ->
  py_sum (firstn i l) <= py_sum (firstn (S i) l).
Proof.
  intro H. revert i. induction H as [|x r Hx _ IH]; intro i.
  - destruct i; simpl; lia.
  - destruct i as [|i].
    + simpl. unfold py_sum. simpl. lia.
    + change (py_sum (x :: firstn i r) <= py_sum (x :: firstn (S i) r)).
      rewrite !py_sum_cons. specialize (IH i). lia.
Qed.

Lemma prefix_mono (l : list Z) (i j : nat) :
  Forall (fun x => 0 <= x) l -> (i <= j)%nat ->
  py_sum (firstn i l) <= py_sum (firstn j l).
Proof.
  intros H Hij. induction Hij as [|j _ IH].
  - lia.
  - pose proof (prefix_step l j H). lia.
Qed.

Lemma prefix_cover (l : list Z) (x : Z) :
  Forall (fun y => 0 <= y) l -> 0 <= x < py_sum l ->
  exists i, (i < length l)%nat /\
            py_sum (firstn i l) <= x < py_sum (firstn (S i) l).
Proof.
  intro H. revert x. induction H as [|y r Hy _ IH]; intros x Hx.
  - unfold py_sum in Hx. simpl in Hx. lia.
  - rewrite py_sum_cons in Hx.
    destruct (Z_lt_dec x y) as [Hlt|Hge].
    + exists O. simpl. split; [lia|]. unfold py_sum. simpl. lia.
    + destruct (IH (x - y)) as [i [Hi Hr]]; [lia|].
      exists (S i). split; [simpl; lia|].
      change (py_sum (y :: firstn i r) <= x < py_sum (y :: firstn (S i) r)).
      rewrite !py_sum_cons. lia.
Qed.

(** C5: for non-negative lengths, the ranges stored at construction are,
    by dataset index, (sum of lengths[0..i), sum of lengths[0..i]); each
    starts where the previous one ends, they are ordered and pairwise
    disjoint, and an index lies in some range exactly when it lies in
    [0, sum(lengths)). *)
Theorem ranges_partition_invariant
    (ls : list Z) (bs : Z) (dl : bool) (sd : Z) (sh : bool)
    (tr : option Trainer) (s : Sampler) :
  Forall (fun x => 0 <= x) ls ->
  construct ls bs dl sd sh tr = Ok s ->
  length (ranges s) = length ls /\
  (forall i, (i < length ls)%nat ->
     nth_error (ranges s) i = Some (py_sum (firstn i ls), py_sum (firstn (S i) ls))) /\
  (forall a b, nth_error (ranges s) 0 = Some (a, b) -> a = 0) /\
  (forall i a b c d,
     nth_error (ranges s) i = Some (a, b) ->
     nth_error (ranges s) (S i) = Some (c, d) -> c = b) /\
  (forall i j a b c d, (i < j)%nat ->
     nth_error (ranges s) i = Some (a, b) ->
     nth_error (ranges s) j = Some (c, d) -> a <= b /\ b <= c) /\
  (forall i j a b c d x,
     nth_error (ranges s) i = Some (a, b) ->
     nth_error (ranges s) j = Some (c, d) ->
     a <= x < b -> c <= x < d -> i = j) /\
  (forall x, 0 <= x < py_sum ls <->
     exists i a b, nth_error (ranges s) i = Some (a, b) /\ a <= x < b).
Proof.
  intros Hpos Hc. unfold construct in Hc. inversion Hc as [Hs]. clear Hc.
  cbn [ranges lengths]. fold (partition ls).
  assert (Hord : forall i j a b c d, (i < j)%nat ->
            nth_error (partition ls) i = Some (a, b) ->
            nth_error (partition ls) j = Some (c, d) -> a <= b /\ b <= c).
  { intros i j a b c d Hij Hi Hj.
    apply partition_nth_inv in Hi. apply partition_nth_inv in Hj.
    destruct Hi as [_ [-> ->]]. destruct Hj as [_ [-> _]].
    split; [apply prefix_step; exact Hpos | apply prefix_mono; [exact Hpos | lia]]. }
  split; [apply partition_length|].
  split; [intros i Hi; apply partition_nth; exact Hi|].
  split.
  { intros a b H. apply partition_nth_inv in H. destruct H as [_ [-> _]]. reflexivity. }
  split.
  { intros i a b c d Hi Hj.
    apply partition_nth_inv in Hi. apply partition_nth_inv in Hj.
    destruct Hi as [_ [_ ->]]. destruct Hj as [_ [-> _]]. reflexivity. }
  split; [exact Hord|].
  split.
  { intros i j a b c d x Hi Hj Hx Hy.
    destruct (Nat.lt_trichotomy i j) as [Hlt|[Heq|Hgt]]; [|exact Heq|].
    - destruct (Hord _ _ _ _ _ _ Hlt Hi Hj). lia.
    - destruct (Hord _ _ _ _ _ _ Hgt Hj Hi). lia. }
  intro x. split.
  - intro Hx. destruct (prefix_cover ls x Hpos Hx) as [i [Hi Hr]].
    exists i, (py_sum (firstn i ls)), (py_sum (firstn (S i) ls)).
    split; [apply partition_nth; exact Hi | exact Hr].
  - intros [i [a [b [Hi Hx]]]].
    apply partition_nth_inv in Hi. destruct Hi as [Hi [-> ->]].
    pose proof (prefix_mono ls 0 i Hpos ltac:(lia)) as H0.
    pose proof (prefix_mono ls (S i) (length ls) Hpos ltac:(lia)) as H1.
    rewrite firstn_all in H1. simpl in H0. unfold py_sum at 1 in H0. simpl in H0. lia.
Qed.

Lemma ranges_partition_invariant_witness :
  exists s, construct [4; 6] 2 false 0 false None = Ok s /\
            nth_error (ranges s) 1 = Some (4, 10).
Proof.
  eexists. split; [reflexivity|].
  refine (proj1 (proj2 (ranges_partition_invariant [4; 6] 2 false 0 false None _ _ eq_refl)) 1%nat _).
  - repeat constructor; lia.
  - simpl. lia.
Defined.

(** ** One dataset's batch sampler *)

Lemma group_count_zero (dl : bool) (bsz n : nat) :
  (0 < bsz)%nat ->
  group_count dl bsz n = O <-> (if dl then (n < bsz)%nat else n = O).
Proof.
  intro Hb. unfold group_count. destruct dl.
  - rewrite Nat.div_small_iff by lia. tauto.
  - rewrite Nat.div_small_iff by lia. lia.
Qed.

Lemma group_count_step (dl : bool) (bsz n : nat) :
  (0 < bsz)%nat -> group_count dl bsz n <> O ->
  group_count dl bsz n = S (group_count dl bsz (n - bsz)).
Proof.
  intros Hb Hn.
  assert (Hz := group_count_zero dl bsz n Hb).
  unfold group_count in *. destruct dl.
  - assert (Hge : (bsz <= n)%nat) by lia.
    replace n with (1 * bsz + (n - bsz))%nat at 1 by lia.
    rewrite Nat.div_add_l by lia. lia.
  - assert (Hge : (1 <= n)%nat) by lia.
    destruct (Nat.le_gt_cases bsz n) as [Hle|Hlt].
    + replace (n + bsz - 1)%nat with (1 * bsz + (n - bsz + bsz - 1))%nat by lia.
      rewrite Nat.div_add_l by lia. lia.
    + replace (n - bsz)%nat with O by lia.
      replace (n + bsz - 1)%nat with (1 * bsz + (n - 1))%nat by lia.
      rewrite Nat.div_add_l by lia.
      rewrite (Nat.div_small (n - 1)) by lia.
      rewrite (Nat.div_small (0 + bsz - 1)) by lia. lia.
Qed.

Lemma pull_spec (dl : bool) (bsz : nat) (rest : list Z) :
  (0 < bsz)%nat ->
  pull dl bsz rest =
  if (group_count dl bsz (length rest) =? 0)%nat then (None, Exhausted)
  else (Some (firstn bsz rest), Running (skipn bsz rest)).
Proof.
  intro Hb. unfold pull.
  pose proof (group_count_zero dl bsz (length rest) Hb) as Hz.
  destruct (Nat.leb_spec bsz (length rest)) as [Hle|Hlt].
  - destruct (Nat.eqb_spec (group_count dl bsz (length rest)) 0) as [H0|_];
      [|reflexivity].
    apply Hz in H0. destruct dl; lia.
  - destruct rest as [|x r].
    + destruct (Nat.eqb_spec (group_count dl bsz (length (@nil Z))) 0) as [_|H0];
        [reflexivity|].
      exfalso. apply H0. apply Hz. destruct dl; simpl; lia.
    + destruct dl.
      * destruct (Nat.eqb_spec (group_count true bsz (length (x :: r))) 0) as [_|H0];
          [reflexivity|].
        exfalso. apply H0. apply Hz. exact Hlt.
      * destruct (Nat.eqb_spec (group_count false bsz (length (x :: r))) 0) as [H0|_].
        { apply Hz in H0. simpl in H0. lia. }
        rewrite firstn_all2 by lia. rewrite skipn_all2 by lia. reflexivity.
Qed.

Lemma drain_running (G : Generator) (sh dl : bool) (bsz : nat) :
  (0 < bsz)%nat ->
  forall (fuel : nat) (rest : list Z) (g : gstate G),
    (group_count dl bsz (length rest) < fuel)%nat ->
    drain G sh dl bsz fuel (Running rest) g =
    (map (group_at bsz rest) (seq 0 (group_count dl bsz (length rest))), Exhausted, g).
Proof.
  intro Hb. induction fuel as [|fuel IH]; intros rest g Hf; [lia|].
  cbn [drain batcher_next]. rewrite pull_spec by exact Hb.
  destruct (Nat.eqb_spec (group_count dl bsz (length rest)) 0) as [H0|H0].
  - rewrite H0. reflexivity.
  - pose proof (group_count_step dl bsz (length rest) Hb H0) as Hs.
    rewrite <- length_skipn in Hs.
    rewrite IH by lia. rewrite Hs. cbn [seq map].
    f_equal. f_equal. f_equal.
    rewrite <- seq_shift, map_map. apply map_ext. intro k.
    unfold group_at. rewrite skipn_skipn. do 2 f_equal. lia.
Qed.

Lemma py_range_length (a b : Z) : length (py_range a b) = Z.to_nat (b - a).
Proof. unfold py_range. rewrite length_map, length_seq. reflexivity. Qed.

Lemma map_seq_offset {A : Type} (f : nat -> A) (a n : nat) :
  map f (seq a n) = map (fun j => f (a + j)%nat) (seq 0 n).
Proof.
  revert a f. induction n as [|n IH]; intros a f; [reflexivity|].
  cbn [seq map]. f_equal.
  - f_equal. lia.
  - rewrite (IH (S a)), (IH 1%nat). apply map_ext. intro j. f_equal. lia.
Qed.

Lemma firstn_seq (n a len : nat) : firstn n (seq a len) = seq a (Nat.min n len).
Proof.
  revert a len. induction n as [|n IH]; intros a len; [reflexivity|].
  destruct len as [|len]; [reflexivity|].
  cbn [seq firstn Nat.min]. f_equal. apply IH.
Qed.

Lemma to_nat_div (a b : Z) :
  0 <= a -> 0 < b -> Z.to_nat (a / b) = (Z.to_nat a / Z.to_nat b)%nat.
Proof.
  intros Ha Hb. apply Nat2Z.inj.
  rewrite Nat2Z.inj_div, !Z2Nat.id; try lia.
  apply Z.div_pos; lia.
Qed.

Lemma group_at_range (bs start L : Z) (k : nat) :
  0 < bs -> 0 <= L ->
  group_at (Z.to_nat bs) (py_range start (start + L)) k =
  py_range (start + Z.of_nat k * bs)
           (Z.min (start + (Z.of_nat k + 1) * bs) (start + L)).
Proof.
  intros Hb HL. unfold group_at, py_range.
  rewrite skipn_map, firstn_map, skipn_seq, firstn_seq.
  rewrite map_seq_offset.
  replace (Z.to_nat (Z.min (start + (Z.of_nat k + 1) * bs) (start + L)
                     - (start + Z.of_nat k * bs)))
    with (Nat.min (Z.to_nat bs) (Z.to_nat (start + L - start) - k * Z.to_nat bs)).
  - apply map_ext. intro j. rewrite !Nat2Z.inj_add, Nat2Z.inj_mul, Z2Nat.id by lia.
    lia.
  - assert (E : Z.of_nat (k * Z.to_nat bs) = Z.of_nat k * bs)
      by (rewrite Nat2Z.inj_mul, Z2Nat.id by lia; reflexivity).
    remember (k * Z.to_nat bs)%nat as kb. remember (Z.of_nat k * bs) as kbz.
    lia.
Qed.

Lemma group_count_Z (dl : bool) (bs L : Z) :
  0 < bs -> 0 <= L ->
  group_count dl (Z.to_nat bs) (Z.to_nat L) = Z.to_nat (BatchSampler_len dl bs L).
Proof.
  intros Hb HL. unfold group_count, BatchSampler_len. destruct dl.
  - rewrite to_nat_div by lia. reflexivity.
  - rewrite to_nat_div by lia. f_equal. lia.
Qed.

Lemma BatchSampler_len_nonneg (dl : bool) (bs L : Z) :
  0 < bs -> 0 <= L -> 0 <= BatchSampler_len dl bs L.
Proof.
  intros Hb HL. unfold BatchSampler_len. destruct dl; apply Z.div_pos; lia.
Qed.

Lemma BatchSampler_len_floor_ceil (dl : bool) (bs L : Z) :
  0 < bs ->
  let n := BatchSampler_len dl bs L in
  if dl then n * bs <= L < (n + 1) * bs else (n - 1) * bs < L <= n * bs.
Proof.
  intros Hb n. subst n. unfold BatchSampler_len. destruct dl.
  - pose proof (Z.div_mod L bs ltac:(lia)) as E.
    pose proof (Z.mod_pos_bound L bs Hb) as B. nia.
  - pose proof (Z.div_mod (L + bs - 1) bs ltac:(lia)) as E.
    pose proof (Z.mod_pos_bound (L + bs - 1) bs Hb) as B. nia.
Qed.

Lemma subset_random_length {A : Type} (G : Generator) (d : A) (l : list A)
    (g : gstate G) :
  randperm_permutes G ->
  length (fst (SubsetRandomSampler_iter G d l g)) = length l.
Proof.
  intro HG. unfold SubsetRandomSampler_iter.
  pose proof (HG g (length l)) as Hp.
  destruct (randperm G g (length l)) as [p g']. simpl in *.
  rewrite length_map, (Permutation_length Hp), length_seq. reflexivity.
Qed.

(** C8: a dataset of [L >= 0] indices starting at [start], batch size
    [bs > 0].  The batch count [n] is floor(L/bs) with drop_last and
    ceil(L/bs) without.  Without shuffling the iterator gives exactly the
    [n] consecutive groups [start + k*bs, min(start + (k+1)*bs, start + L))
    in ascending order, each of [bs] indices except that the last may be
    shorter when drop_last is false, and nothing when [n = 0].  With
    shuffling it gives [n] batches as well. *)
Theorem batcher_groups (G : Generator) (start L bs : Z) (dl : bool)
    (g : gstate G) (fuel : nat) :
  randperm_permutes G ->
  0 <= L -> 0 < bs ->
  (Z.to_nat (BatchSampler_len dl bs L) < fuel)%nat ->
  let n := BatchSampler_len dl bs L in
  let group k := py_range (start + Z.of_nat k * bs)
                          (Z.min (start + (Z.of_nat k + 1) * bs) (start + L)) in
  (if dl then n * bs <= L < (n + 1) * bs else (n - 1) * bs < L <= n * bs) /\
  drain G false dl (Z.to_nat bs) fuel (Fresh start (start + L)) g =
    (map group (seq 0 (Z.to_nat n)), Exhausted, g) /\
  (forall k, (k < Z.to_nat n)%nat ->
     Z.of_nat (length (group k)) = bs \/
     (dl = false /\ S k = Z.to_nat n /\ (0 < length (group k))%nat)) /\
  (n = 0 -> drain G false dl (Z.to_nat bs) fuel (Fresh start (start + L)) g
            = ([], Exhausted, g)) /\
  (exists out g',
     drain G true dl (Z.to_nat bs) fuel (Fresh start (start + L)) g
       = (out, Exhausted, g') /\
     Z.of_nat (length out) = n).
Proof.
  intros HG HL Hb Hf n group.
  assert (Hbz : (0 < Z.to_nat bs)%nat) by lia.
  pose proof (BatchSampler_len_floor_ceil dl bs L Hb) as Hfc. cbv zeta in Hfc.
  fold n in Hfc.
  pose proof (BatchSampler_len_nonneg dl bs L Hb HL) as Hn. fold n in Hn.
  assert (Hlen : length (py_range start (start + L)) = Z.to_nat L)
    by (rewrite py_range_length; f_equal; lia).
  assert (Hrun : drain G false dl (Z.to_nat bs) fuel (Fresh start (start + L)) g =
                 (map group (seq 0 (Z.to_nat n)), Exhausted, g)).
  { destruct fuel as [|fuel]; [lia|].
    pose proof (drain_running G false dl (Z.to_nat bs) Hbz (S fuel)
                  (py_range start (start + L)) g) as Hd.
    rewrite Hlen, group_count_Z in Hd by lia.
    cbn [drain batcher_next] in *. rewrite Hd by exact Hf.
    f_equal. f_equal. apply map_ext. intro k. apply group_at_range; lia. }
  split; [exact Hfc|]. split; [exact Hrun|]. split.
  { intros k Hk. subst group. cbv beta. rewrite py_range_length.
    destruct dl.
    - left. nia.
    - destruct (Nat.eq_dec (S k) (Z.to_nat n)) as [Hlast|Hnot].
      + destruct (Z.eq_dec L (n * bs)) as [Hfull|Hpart].
        * left. nia.
        * right. split; [reflexivity|]. split; [exact Hlast|]. nia.
      + left. nia. }
  split.
  { intro H0. rewrite Hrun, H0. reflexivity. }
  destruct fuel as [|fuel]; [lia|].
  cbn [drain batcher_next].
  pose proof (subset_random_length G 0 (py_range start (start + L)) g HG) as Hsl.
  destruct (SubsetRandomSampler_iter G 0 (py_range start (start + L)) g) as [idxs g'].
  simpl in Hsl.
  pose proof (drain_running G true dl (Z.to_nat bs) Hbz (S fuel) idxs g') as Hd.
  rewrite Hsl, Hlen, group_count_Z in Hd by lia.
  cbn [drain batcher_next] in Hd. rewrite Hd by exact Hf.
  eexists. eexists. split; [reflexivity|].
  rewrite length_map, length_seq. lia.
Qed.

Lemma rotating_permutes : randperm_permutes rotating.
Proof.
  intros g n. cbn. unfold rotate.
  rewrite Permutation_app_comm, firstn_skipn. reflexivity.
Qed.

Lemma reversing_permutes : randperm_permutes reversing.
Proof. intros g n. cbn. symmetry. apply Permutation_rev. Qed.

Lemma batcher_groups_witness :
  drain rotating false false 2 10 (Fresh 4 10) 0
  = ([[4; 5]; [6; 7]; [8; 9]], Exhausted, 0).
Proof.
  exact (proj1 (proj2 (batcher_groups rotating 4 6 2 false 0 10 rotating_permutes
                         ltac:(lia) ltac:(lia) ltac:(vm_compute; lia)))).
Defined.

(** ** Construction and the empty configuration *)

Lemma manual_seed_accepted (G : Generator) (z : Z) :
  seed_accepted z = true -> manual_seed G z = Ok (seed_state G z).
Proof. intro H. unfold manual_seed. rewrite H. reflexivity. Qed.

Lemma manual_seed_refused (G : Generator) (z : Z) :
  seed_accepted z = false -> manual_seed G z = Raise ValueError.
Proof. intro H. unfold manual_seed. rewrite H. reflexivity. Qed.

(** C10: with no dataset, a round-robin pass yields no batch and its first
    [next] ends the generator: with [StopIteration] when the generator
    accepts seed + epoch, and with the generator's [ValueError] when it
    does not.  [__len__] raises (the minimum of an empty list) instead of
    returning 0. *)
Theorem round_robin_empty_lengths (G : Generator) (bs : Z) (dl : bool) (sd : Z)
    (sh : bool) (tr : option Trainer) (e : Z) (fuel : nat) :
  exists s,
    RoundRobinBatchSampler.__init__ [] bs dl sd sh tr = Ok s /\
    yielded (RoundRobinBatchSampler.pass G (RoundRobinBatchSampler.set_epoch s e) fuel tr)
    = [] /\
    (seed_accepted (sd + e) = true ->
       RoundRobinBatchSampler.next G (RoundRobinBatchSampler.set_epoch s e)
         (RoundRobinBatchSampler.__iter__ G (RoundRobinBatchSampler.set_epoch s e)) tr
       = (StopIteration, RoundRobinBatchSampler.Closed, tr) /\
       RoundRobinBatchSampler.pass G (RoundRobinBatchSampler.set_epoch s e) (S fuel) tr
       = ([], Completed, RoundRobinBatchSampler.Closed, tr)) /\
    (seed_accepted (sd + e) = false ->
       RoundRobinBatchSampler.next G (RoundRobinBatchSampler.set_epoch s e)
         (RoundRobinBatchSampler.__iter__ G (RoundRobinBatchSampler.set_epoch s e)) tr
       = (Error ValueError, RoundRobinBatchSampler.Closed, tr) /\
       RoundRobinBatchSampler.pass G (RoundRobinBatchSampler.set_epoch s e) (S fuel) tr
       = ([], Failed ValueError, RoundRobinBatchSampler.Closed, tr)) /\
    RoundRobinBatchSampler.__len__ (RoundRobinBatchSampler.set_epoch s e)
    = Raise ValueError /\
    RoundRobinBatchSampler.__len__ s = Raise ValueError.
Proof.
  eexists. split; [reflexivity|].
  assert (Hacc : seed_accepted (sd + e) = true ->
            RoundRobinBatchSampler.next G
              (RoundRobinBatchSampler.set_epoch
                 {| lengths := []; ranges := []; seed := sd; shuffle := sh;
                    drop_last := dl; batch_size := bs; epoch := 0 |} e)
              RoundRobinBatchSampler.Created tr
            = (StopIteration, RoundRobinBatchSampler.Closed, tr)).
  { intro H. cbn. unfold manual_seed. rewrite H. reflexivity. }
  assert (Href : seed_accepted (sd + e) = false ->
            RoundRobinBatchSampler.next G
              (RoundRobinBatchSampler.set_epoch
                 {| lengths := []; ranges := []; seed := sd; shuffle := sh;
                    drop_last := dl; batch_size := bs; epoch := 0 |} e)
              RoundRobinBatchSampler.Created tr
            = (Error ValueError, RoundRobinBatchSampler.Closed, tr)).
  { intro H. cbn. unfold manual_seed. rewrite H. reflexivity. }
  split.
  { destruct fuel as [|fuel]; [reflexivity|].
    unfold RoundRobinBatchSampler.pass, RoundRobinBatchSampler.__iter__.
    destruct (seed_accepted (sd + e)) eqn:Hs.
    - cbn [drive]. cbn in Hacc. cbn. rewrite (Hacc eq_refl). reflexivity.
    - cbn [drive]. cbn in Href. cbn. rewrite (Href eq_refl). reflexivity. }
  split.
  { intro H. split; [apply Hacc; exact H|].
    unfold RoundRobinBatchSampler.pass, RoundRobinBatchSampler.__iter__.
    cbn [drive]. cbn in Hacc. cbn. rewrite (Hacc H). reflexivity. }
  split.
  { intro H. split; [apply Href; exact H|].
    unfold RoundRobinBatchSampler.pass, RoundRobinBatchSampler.__iter__.
    cbn [drive]. cbn in Href. cbn. rewrite (Href H). reflexivity. }
  split; destruct dl; reflexivity.
Qed.

Lemma comprehension_Ok {A B : Type} (f : A -> B) (l : list A) :
  comprehension (fun x => Ok (f x)) l = Ok (map f l).
Proof.
  induction l as [|x r IH]; [reflexivity|].
  cbn [comprehension bind map]. rewrite IH. reflexivity.
Qed.

Lemma comprehension_Raise {A B : Type} (e : exn) (x : A) (l : list A) :
  comprehension (fun _ : A => @Raise B e) (x :: l) = Raise e.
Proof. reflexivity. Qed.

Lemma make_batch_samplers_positive (s : Sampler) :
  0 < batch_size s ->
  make_batch_samplers s = Ok (map (fun r => Fresh (fst r) (snd r)) (ranges s)).
Proof.
  intro Hb. unfold make_batch_samplers.
  destruct (Z.leb_spec (batch_size s) 0) as [H|_]; [lia|].
  apply comprehension_Ok.
Qed.

(** The claim of C6 fails on the code: a batch size of zero, a negative
    length and a trainer with too few names are all accepted by both
    constructors. *)
Lemma construction_unchecked :
  ~ (forall ls bs dl sd sh tr,
       (bs <= 0 \/ Exists (fun x => x < 0) ls \/
        (exists t, tr = Some t /\ length (dataset_names t) <> length ls)) ->
       (exists e, RoundRobinBatchSampler.__init__ ls bs dl sd sh tr = Raise e) /\
       (exists e, ProportionalBatchSampler.__init__ ls bs dl sd sh tr = Raise e)).
Proof.
  intro H.
  assert (Hbs : 0 <= 0) by lia.
  destruct (H [-1] 0 false 0 true
              (Some {| training_with_dataset_dict := true;
                       dataset_names := [];
                       dataset_name := EmptyString |})
              (or_introl Hbs)) as [[e He] _].
  discriminate He.
Qed.

(** C6, as the code has it: construction checks nothing and always
    succeeds, storing the parameters as given.  A batch size that is not
    positive is refused only by the library's batch sampler, at the first
    [next] of a pass over at least one dataset, before any batch. *)
Theorem construction_total (G : Generator) (ls : list Z) (bs : Z) (dl : bool)
    (sd : Z) (sh : bool) (tr : option Trainer) :
  exists s,
    RoundRobinBatchSampler.__init__ ls bs dl sd sh tr = Ok s /\
    ProportionalBatchSampler.__init__ ls bs dl sd sh tr = Ok s /\
    lengths s = ls /\ batch_size s = bs /\ drop_last s = dl /\
    seed s = sd /\ shuffle s = sh /\ epoch s = 0 /\
    (bs <= 0 -> ls <> [] -> forall tr',
       RoundRobinBatchSampler.next G s (RoundRobinBatchSampler.__iter__ G s) tr'
       = (Error ValueError, RoundRobinBatchSampler.Closed, tr') /\
       ProportionalBatchSampler.next G s (ProportionalBatchSampler.__iter__ G s) tr'
       = (Error ValueError, ProportionalBatchSampler.Closed, tr')).
Proof.
  eexists. split; [reflexivity|]. split; [reflexivity|].
  repeat (split; [reflexivity|]).
  intros Hb Hne tr'.
  match goal with
  | |- RoundRobinBatchSampler.next G ?s0 _ _ = _ /\ _ =>
      assert (Hm : make_batch_samplers s0 = Raise ValueError)
  end.
  { unfold make_batch_samplers. cbn [ranges batch_size].
    destruct (Z.leb_spec bs 0) as [_|H]; [|lia].
    destruct ls as [|x r]; [congruence|].
    cbn [accumulate combine]. apply comprehension_Raise. }
  unfold RoundRobinBatchSampler.next, ProportionalBatchSampler.next,
    RoundRobinBatchSampler.__iter__, ProportionalBatchSampler.__iter__.
  rewrite Hm. unfold manual_seed.
  destruct (seed_accepted _); split; reflexivity.
Qed.

(** ** The trainer update and the declared length on concrete passes *)

(** C7 on the code: two datasets of two samples, batch size 2, a trainer
    with names a and b whose slot holds "init".  The first [next] hands
    over the batch of dataset 0 while the slot still holds "init"; the
    second hands over the batch of dataset 1 while the slot holds "a".  The
    assignment follows the [yield], so it runs when the consumer asks for
    the following batch.  The proportional sampler behaves alike. *)
Theorem trainer_update_lags_one_batch (G : Generator) :
  let t0 := {| training_with_dataset_dict := true;
               dataset_names := ["a"; "b"]%string;
               dataset_name := "init"%string |} in
  let s := built (RoundRobinBatchSampler.__init__ [2; 2] 2 false 0 false (Some t0)) in
  let r1 := RoundRobinBatchSampler.next G s (RoundRobinBatchSampler.__iter__ G s) (Some t0) in
  let r2 := RoundRobinBatchSampler.next G s (snd (fst r1)) (snd r1) in
  let r3 := RoundRobinBatchSampler.next G s (snd (fst r2)) (snd r2) in
  seen RoundRobinBatchSampler.source r1 = (Yield [0; 1], 0%nat, Some "init"%string) /\
  seen RoundRobinBatchSampler.source r2 = (Yield [2; 3], 1%nat, Some "a"%string) /\
  seen RoundRobinBatchSampler.source r3 = (StopIteration, 0%nat, Some "b"%string) /\
  let p1 := ProportionalBatchSampler.next reversing s
              (ProportionalBatchSampler.__iter__ reversing s) (Some t0) in
  let p2 := ProportionalBatchSampler.next reversing s (snd (fst p1)) (snd p1) in
  seen ProportionalBatchSampler.source p1 = (Yield [2; 3], 1%nat, Some "init"%string) /\
  seen ProportionalBatchSampler.source p2 = (Yield [0; 1], 0%nat, Some "b"%string).
Proof. cbv zeta. repeat split. Qed.

(** C1 on the code: lengths 6 and 4 with batch size 2 give 3 and 2 batches.
    The pass yields five batches, the fifth from dataset 0 in the cycle in
    which dataset 1 is found exhausted, while [__len__] returns 2 * 2 = 4. *)
Theorem round_robin_length_mismatch (G : Generator) :
  let s := built (RoundRobinBatchSampler.__init__ [6; 4] 2 false 0 false None) in
  RoundRobinBatchSampler.__len__ s = Ok 4 /\
  forall fuel, (6 <= fuel)%nat ->
    fst (fst (RoundRobinBatchSampler.pass G s fuel None))
    = ([([0; 1], 0%nat); ([6; 7], 1%nat); ([2; 3], 0%nat); ([8; 9], 1%nat);
        ([4; 5], 0%nat)], Completed).
Proof.
  cbv zeta. split; [reflexivity|].
  intros fuel Hf.
  do 6 (destruct fuel as [|fuel]; [lia|]). reflexivity.
Qed.

Lemma round_robin_length_mismatch_witness :
  fst (fst (RoundRobinBatchSampler.pass rotating
              (built (RoundRobinBatchSampler.__init__ [6; 4] 2 false 0 false None))
              6 None))
  = ([([0; 1], 0%nat); ([6; 7], 1%nat); ([2; 3], 0%nat); ([8; 9], 1%nat);
      ([4; 5], 0%nat)], Completed).
Proof.
  exact (proj2 (round_robin_length_mismatch rotating) 6%nat (le_n 6)).
Defined.

(** ** Driving a generator *)

Section Drive.

Context {St : Type}.
Variable next : St -> option Trainer -> signal * St * option Trainer.
Variable tag : St -> nat.

Lemma drive_yield (fuel : nat) (st st' : St) (tr tr' : option Trainer)
    (batch : list Z) :
  next st tr = (Yield batch, st', tr') ->
  yielded (drive next tag (S fuel) st tr)
    = (batch, tag st') :: yielded (drive next tag fuel st' tr') /\
  ended (drive next tag (S fuel) st tr) = ended (drive next tag fuel st' tr') /\
  final_state (drive next tag (S fuel) st tr)
    = final_state (drive next tag fuel st' tr') /\
  final_trainer (drive next tag (S fuel) st tr)
    = final_trainer (drive next tag fuel st' tr').
Proof.
  intro H. cbn [drive]. rewrite H.
  destruct (drive next tag fuel st' tr') as [[[out e] st''] tr''].
  repeat split.
Qed.

Lemma drive_stop (fuel : nat) (st st' : St) (tr tr' : option Trainer) :
  next st tr = (StopIteration, st', tr') ->
  drive next tag (S fuel) st tr = ([], Completed, st', tr').
Proof. intro H. cbn [drive]. rewrite H. reflexivity. Qed.

Lemma drive_error (fuel : nat) (st st' : St) (tr tr' : option Trainer) (e : exn) :
  next st tr = (Error e, st', tr') ->
  drive next tag (S fuel) st tr = ([], Failed e, st', tr').
Proof. intro H. cbn [drive]. rewrite H. reflexivity. Qed.

End Drive.

Lemma update_length {A : Type} (i : nat) (x : A) (l : list A) :
  length (update i x l) = length l.
Proof.
  revert i. induction l as [|y r IH]; intro i; [reflexivity|].
  destruct i; simpl; [reflexivity | f_equal; apply IH].
Qed.

Lemma update_nth_same {A : Type} (i : nat) (x : A) (l : list A) :
  (i < length l)%nat -> nth_error (update i x l) i = Some x.
Proof.
  revert i. induction l as [|y r IH]; intros i Hi; simpl in Hi; [lia|].
  destruct i; simpl; [reflexivity | apply IH; lia].
Qed.

Lemma update_nth_other {A : Type} (i j : nat) (x : A) (l : list A) :
  i <> j -> nth_error (update i x l) j = nth_error l j.
Proof.
  revert i j. induction l as [|y r IH]; intros i j Hij; [destruct i; reflexivity|].
  destruct i, j; simpl; try reflexivity; [lia | apply IH; lia].
Qed.

Lemma comprehension_length {A B : Type} (f : A -> result B) (l : list A)
    (out : list B) :
  comprehension f l = Ok out -> length out = length l.
Proof.
  revert out. induction l as [|x r IH]; intros out H; simpl in H.
  - inversion H. reflexivity.
  - destruct (f x) as [y|e]; simpl in H; [|discriminate].
    destruct (comprehension f r) as [ys|e]; simpl in H; [|discriminate].
    inversion H. simpl. f_equal. apply IH. reflexivity.
Qed.

Lemma make_batch_samplers_length (s : Sampler) (bss : list batcher) :
  make_batch_samplers s = Ok bss -> length bss = length (ranges s).
Proof. apply comprehension_length. Qed.

(** ** Round-robin: order of service and stop at the first exhaustion *)

Module RoundRobinFacts.
Import RoundRobinBatchSampler.

Lemma body_cases (G : Generator) (s : Sampler) (g : gstate G)
    (bss : list batcher) (i : nat) :
  (exists batch g' b', body G s g bss i = (Yield batch, Suspended g' (update i b' bss) i)) \/
  body G s g bss i = (StopIteration, Closed) \/
  body G s g bss i = (Error IndexError, Closed).
Proof.
  unfold body. destruct (nth_error bss i) as [b|]; [|auto].
  destruct (batcher_next G (shuffle s) (drop_last s) (Z.to_nat (batch_size s)) b g)
    as [[[batch|] b'] g']; [left; eauto | auto].
Qed.

Lemma closed_stays (G : Generator) (s : Sampler) (fuel : nat) (tr : option Trainer) :
  yielded (drive (next G s) source fuel Closed tr) = [] /\
  final_state (drive (next G s) source fuel Closed tr) = Closed.
Proof. destruct fuel; split; reflexivity. Qed.

Lemma next_suspended_cases (G : Generator) (s : Sampler) (g : gstate G)
    (bss : list batcher) (i : nat) (tr : option Trainer) :
  (exists batch g' b' tr1,
     next G s (Suspended g bss i) tr
     = (Yield batch,
        Suspended g' (update (S i mod length bss) b' bss) (S i mod length bss), tr1)) \/
  (exists tr1, next G s (Suspended g bss i) tr = (StopIteration, Closed, tr1)) \/
  (exists e tr1, next G s (Suspended g bss i) tr = (Error e, Closed, tr1)).
Proof.
  cbn [next]. destruct (notify tr i) as [tr1|e]; [|right; right; eauto].
  destruct (body_cases G s g bss (S i mod length bss)) as [[batch [g' [b' H]]]|[H|H]];
    rewrite H; [left | right; left | right; right]; eauto.
Qed.

Lemma tags_from_suspended (G : Generator) (s : Sampler) (fuel : nat) :
  forall (g : gstate G) (bss : list batcher) (i : nat) (tr : option Trainer),
    (0 < length bss)%nat ->
    map snd (yielded (drive (next G s) source fuel (Suspended g bss i) tr))
    = map (fun k => rotation (length bss) (i + 1 + k))
          (seq 0 (length (yielded (drive (next G s) source fuel (Suspended g bss i) tr)))).
Proof.
  induction fuel as [|fuel IH]; intros g bss i tr Hn; [reflexivity|].
  destruct (next_suspended_cases G s g bss i tr)
    as [[batch [g' [b' [tr1 H]]]]|[[tr1 H]|[e [tr1 H]]]].
  - destruct (drive_yield (next G s) source fuel _ _ _ _ _ H) as [Hy _].
    rewrite Hy. cbn [map length seq source snd].
    f_equal.
    + unfold rotation. cbn [snd]. f_equal. lia.
    + rewrite IH by (rewrite update_length; exact Hn).
      rewrite update_length.
      rewrite <- seq_shift, map_map. apply map_ext. intro k.
      unfold rotation.
      replace (S i mod length bss + 1 + k)%nat
        with ((S i) mod length bss + (1 + k))%nat by lia.
      rewrite Nat.Div0.add_mod_idemp_l. f_equal. lia.
  - rewrite (drive_stop _ _ _ _ _ _ _ H). reflexivity.
  - rewrite (drive_error _ _ _ _ _ _ _ _ H). reflexivity.
Qed.

Lemma next_created_cases (G : Generator) (s : Sampler) (tr : option Trainer) :
  (exists batch g' b' bss,
     make_batch_samplers s = Ok bss /\ (0 < length bss)%nat /\
     body G s (seed_state G (seed s + epoch s)) bss 0
       = (Yield batch, Suspended g' (update 0 b' bss) 0%nat) /\
     next G s Created tr = (Yield batch, Suspended g' (update 0 b' bss) 0%nat, tr)) \/
  next G s Created tr = (StopIteration, Closed, tr) \/
  (exists e, next G s Created tr = (Error e, Closed, tr)).
Proof.
  cbn [next]. unfold manual_seed.
  destruct (seed_accepted (seed s + epoch s)); [|right; right; eauto].
  destruct (make_batch_samplers s) as [bss|e] eqn:Hm;
    [|right; right; eauto].
  destruct bss as [|b0 bss']; [right; left; reflexivity|].
  destruct (body_cases G s (seed_state G (seed s + epoch s)) (b0 :: bss') 0)
    as [[batch [g' [b' H]]]|[H|H]]; rewrite H.
  - left. exists batch, g', b', (b0 :: bss').
    split; [reflexivity|]. split; [simpl; lia|]. split; [exact H | reflexivity].
  - right. left. reflexivity.
  - right. right. eauto.
Qed.

Lemma tags_of_pass (G : Generator) (s : Sampler) (fuel : nat) (tr : option Trainer) :
  map snd (yielded (pass G s fuel tr))
  = map (rotation (length (ranges s)))
        (seq 0 (length (yielded (pass G s fuel tr)))).
Proof.
  unfold pass, __iter__. destruct fuel as [|fuel]; [reflexivity|].
  destruct (next_created_cases G s tr)
    as [[batch [g' [b' [bss [Hm [Hpos [_ H]]]]]]]|[H|[e H]]].
  - apply make_batch_samplers_length in Hm as Hlen.
    destruct (drive_yield (next G s) source fuel _ _ _ _ _ H) as [Hy _].
    rewrite Hy. cbn [map length seq source snd]. f_equal.
    { unfold rotation. rewrite Nat.Div0.mod_0_l. reflexivity. }
    pose proof (tags_from_suspended G s fuel g' (update 0 b' bss) 0 tr) as Ht.
    rewrite update_length in Ht. rewrite Ht by exact Hpos.
    rewrite <- Hlen, <- seq_shift, map_map. apply map_ext. intro k. reflexivity.
  - rewrite (drive_stop _ _ _ _ _ _ _ H). reflexivity.
  - rewrite (drive_error _ _ _ _ _ _ _ _ H). reflexivity.
Qed.

(** C3: in a round-robin pass the [k]-th yielded batch comes from dataset
    [k mod n], so service follows 0, 1, ..., n-1, 0, 1, ...; and when the
    batch sampler whose turn it is gives no batch, that [next] ends the
    generator, whatever the other batch samplers still hold, and nothing
    is yielded from then on.  At the first turn this is [StopIteration]
    once the generator has accepted seed + epoch; with a refused seed the
    pass has ended before, and no batch is yielded either. *)
Theorem round_robin_order_then_stop (G : Generator) (s : Sampler) :
  (forall fuel tr,
     map snd (yielded (pass G s fuel tr))
     = map (rotation (length (ranges s)))
           (seq 0 (length (yielded (pass G s fuel tr))))) /\
  (forall g bss i b tr tr1,
     notify tr i = Ok tr1 ->
     nth_error bss (S i mod length bss) = Some b ->
     fst (fst (batcher_next G (shuffle s) (drop_last s) (Z.to_nat (batch_size s)) b g)) = None ->
     next G s (Suspended g bss i) tr = (StopIteration, Closed, tr1)) /\
  (forall bss b tr,
     seed_accepted (seed s + epoch s) = true ->
     make_batch_samplers s = Ok bss ->
     nth_error bss 0 = Some b ->
     fst (fst (batcher_next G (shuffle s) (drop_last s) (Z.to_nat (batch_size s)) b
                 (seed_state G (seed s + epoch s)))) = None ->
     next G s Created tr = (StopIteration, Closed, tr)) /\
  (forall bss b tr,
     make_batch_samplers s = Ok bss ->
     nth_error bss 0 = Some b ->
     fst (fst (batcher_next G (shuffle s) (drop_last s) (Z.to_nat (batch_size s)) b
                 (seed_state G (seed s + epoch s)))) = None ->
     snd (fst (next G s Created tr)) = Closed /\
     forall batch, fst (fst (next G s Created tr)) <> Yield batch) /\
  (forall fuel tr,
     yielded (drive (next G s) source fuel Closed tr) = [] /\
     final_state (drive (next G s) source fuel Closed tr) = Closed).
Proof.
  split; [intros fuel tr; apply tags_of_pass|]. split.
  { intros g bss i b tr tr1 Hnot Hb Hnone. cbn [next]. rewrite Hnot.
    unfold body. rewrite Hb.
    destruct (batcher_next G (shuffle s) (drop_last s) (Z.to_nat (batch_size s)) b g)
      as [[[batch|] b'] g']; [discriminate Hnone | reflexivity]. }
  assert (Hfirst : forall bss b tr,
            seed_accepted (seed s + epoch s) = true ->
            make_batch_samplers s = Ok bss ->
            nth_error bss 0 = Some b ->
            fst (fst (batcher_next G (shuffle s) (drop_last s)
                        (Z.to_nat (batch_size s)) b
                        (seed_state G (seed s + epoch s)))) = None ->
            next G s Created tr = (StopIteration, Closed, tr)).
  { intros bss b tr Hacc Hm Hb Hnone. cbn [next].
    rewrite (manual_seed_accepted G _ Hacc), Hm.
    destruct bss as [|b0 bss']; [reflexivity|].
    unfold body. rewrite Hb.
    destruct (batcher_next G (shuffle s) (drop_last s) (Z.to_nat (batch_size s)) b
                (seed_state G (seed s + epoch s)))
      as [[[batch|] b'] g']; [discriminate Hnone | reflexivity]. }
  split; [exact Hfirst|]. split.
  { intros bss b tr Hm Hb Hnone.
    destruct (seed_accepted (seed s + epoch s)) eqn:Hacc.
    - rewrite (Hfirst bss b tr eq_refl Hm Hb Hnone). split; [reflexivity|].
      intros batch H. discriminate H.
    - cbn [next]. rewrite (manual_seed_refused G _ Hacc). split; [reflexivity|].
      intros batch H. discriminate H. }
  intros fuel tr. apply closed_stays.
Qed.

End RoundRobinFacts.

(** ** Two passes side by side *)

Section DriveTogether.

Context {St1 St2 : Type}.
Variable next1 : St1 -> option Trainer -> signal * St1 * option Trainer.
Variable next2 : St2 -> option Trainer -> signal * St2 * option Trainer.
Variable tag1 : St1 -> nat.
Variable tag2 : St2 -> nat.
Variable R : St1 -> option Trainer -> St2 -> option Trainer -> Prop.

Hypothesis step : forall st1 tr1 st2 tr2,
  R st1 tr1 st2 tr2 -> in_step tag1 tag2 R (next1 st1 tr1) (next2 st2 tr2).

Lemma drive_together (fuel : nat) :
  forall st1 tr1 st2 tr2,
    R st1 tr1 st2 tr2 ->
    yielded (drive next1 tag1 fuel st1 tr1) = yielded (drive next2 tag2 fuel st2 tr2) /\
    ended (drive next1 tag1 fuel st1 tr1) = ended (drive next2 tag2 fuel st2 tr2).
Proof.
  induction fuel as [|fuel IH]; intros st1 tr1 st2 tr2 HR; [split; reflexivity|].
  pose proof (step _ _ _ _ HR) as Hs. unfold in_step in Hs.
  destruct (next1 st1 tr1) as [[sig1 st1'] tr1'] eqn:H1.
  destruct (next2 st2 tr2) as [[sig2 st2'] tr2'] eqn:H2.
  destruct sig1 as [b1| |e1], sig2 as [b2| |e2]; try contradiction.
  - destruct Hs as [Hb [Ht HR']]. subst b2.
    destruct (drive_yield next1 tag1 fuel _ _ _ _ _ H1) as [Hy1 [He1 _]].
    destruct (drive_yield next2 tag2 fuel _ _ _ _ _ H2) as [Hy2 [He2 _]].
    destruct (IH _ _ _ _ HR') as [IHy IHe].
    rewrite Hy1, Hy2, He1, He2, Ht, IHy, IHe. split; reflexivity.
  - rewrite (drive_stop _ _ _ _ _ _ _ H1), (drive_stop _ _ _ _ _ _ _ H2).
    split; reflexivity.
  - subst e2.
    rewrite (drive_error _ _ _ _ _ _ _ _ H1), (drive_error _ _ _ _ _ _ _ _ H2).
    split; reflexivity.
Qed.

End DriveTogether.

Lemma notifier_safe_notify (n i : nat) (tr : option Trainer) :
  notifier_safe n tr = true -> (i < n)%nat ->
  exists tr', notify tr i = Ok tr' /\ notifier_safe n tr' = true.
Proof.
  intros Hs Hi. destruct tr as [t|]; [|exists None; split; reflexivity].
  unfold notify. simpl in Hs.
  destruct (training_with_dataset_dict t) eqn:Hflag.
  - simpl in Hs. apply Nat.leb_le in Hs.
    destruct (nth_error (dataset_names t) i) as [name|] eqn:Hn.
    + eexists. split; [reflexivity|]. simpl. rewrite Hflag. simpl.
      apply Nat.leb_le. exact Hs.
    + apply nth_error_None in Hn. lia.
  - eexists. split; [reflexivity|]. simpl. rewrite Hflag. reflexivity.
Qed.

Lemma same_course_notify (n i : nat) (tr1 tr2 : option Trainer) :
  same_course n tr1 tr2 -> (i < n)%nat ->
  match notify tr1 i, notify tr2 i with
  | Ok tr1', Ok tr2' => same_course n tr1' tr2'
  | Raise e1, Raise e2 => e1 = e2
  | _, _ => False
  end.
Proof.
  intros [Heq|[H1 H2]] Hi.
  - subst tr2. destruct (notify tr1 i); [left|]; reflexivity.
  - destruct (notifier_safe_notify n i tr1 H1 Hi) as [tr1' [E1 S1]].
    destruct (notifier_safe_notify n i tr2 H2 Hi) as [tr2' [E2 S2]].
    rewrite E1, E2. right. split; assumption.
Qed.

Lemma batcher_next_generator (G : Generator) (sh dl : bool) (bsz : nat)
    (b : batcher) (g1 g2 : gstate G) :
  (sh = true -> g1 = g2) ->
  fst (batcher_next G sh dl bsz b g1) = fst (batcher_next G sh dl bsz b g2) /\
  (sh = true -> snd (batcher_next G sh dl bsz b g1) = snd (batcher_next G sh dl bsz b g2)).
Proof.
  intro Hg. destruct sh.
  - rewrite (Hg eq_refl). split; reflexivity.
  - split; [|discriminate]. destruct b; reflexivity.
Qed.

Module RoundRobinTogether.
Import RoundRobinBatchSampler.

Section Together.

Variable G : Generator.
Variables s1 s2 : Sampler.
Hypothesis Hsame : same_schedule s1 s2.

Let related := rr_related G s1.

Lemma rr_body_together (g1 g2 : gstate G) (bss : list batcher) (i : nat)
    (tr1 tr2 : option Trainer) :
  (shuffle s1 = true -> g1 = g2) ->
  length bss = length (ranges s1) ->
  same_course (length (ranges s1)) tr1 tr2 ->
  in_step source source related (body G s1 g1 bss i, tr1) (body G s2 g2 bss i, tr2).
Proof.
  intros Hg Hlen Htr.
  destruct Hsame as [_ [Hsh [Hdl [Hbs _]]]].
  unfold body. rewrite <- Hsh, <- Hdl, <- Hbs.
  destruct (nth_error bss i) as [b|] eqn:Hb; [|reflexivity].
  assert (Hi : (i < length bss)%nat) by (apply nth_error_Some; congruence).
  destruct (batcher_next_generator G (shuffle s1) (drop_last s1)
              (Z.to_nat (batch_size s1)) b g1 g2 Hg) as [Hf Hs].
  destruct (batcher_next G (shuffle s1) (drop_last s1) (Z.to_nat (batch_size s1)) b g1)
    as [[r1 b1] g1'].
  destruct (batcher_next G (shuffle s1) (drop_last s1) (Z.to_nat (batch_size s1)) b g2)
    as [[r2 b2] g2'].
  simpl in Hf, Hs. inversion Hf; subst r2 b2.
  destruct r1 as [batch|]; [|exact I].
  split; [reflexivity|]. split; [reflexivity|]. split; [|exact Htr].
  cbn [rr_alike]. rewrite update_length.
  repeat split; auto.
Qed.

Lemma rr_next_together (st1 : gen G) (tr1 : option Trainer)
    (st2 : gen G) (tr2 : option Trainer) :
  related st1 tr1 st2 tr2 ->
  in_step source source related (next G s1 st1 tr1) (next G s2 st2 tr2).
Proof.
  intros [Hst Htr].
  destruct Hsame as [Hr [Hsh [Hdl [Hbs [Hacc Hsd]]]]].
  destruct st1 as [|g1 bss1 i1|], st2 as [|g2 bss2 i2|]; try contradiction.
  - cbn [next]. unfold manual_seed. rewrite <- Hacc.
    destruct (seed_accepted (seed s1 + epoch s1)); [|reflexivity].
    assert (Hm : make_batch_samplers s2 = make_batch_samplers s1)
      by (unfold make_batch_samplers; rewrite Hr, Hbs; reflexivity).
    rewrite Hm.
    destruct (make_batch_samplers s1) as [bss|e] eqn:Hm1; [|reflexivity].
    destruct bss as [|b0 bss']; [exact I|].
    apply rr_body_together.
    + intro H. rewrite (Hsd H). reflexivity.
    + apply (make_batch_samplers_length s1). exact Hm1.
    + exact Htr.
  - destruct Hst as [Hb [Hi [Hg [Hlen Hlt]]]]. subst bss2 i2.
    cbn [next].
    pose proof (same_course_notify (length (ranges s1)) i1 tr1 tr2 Htr
                  ltac:(lia)) as Hn.
    destruct (notify tr1 i1) as [tr1'|e1], (notify tr2 i1) as [tr2'|e2];
      try contradiction.
    + apply rr_body_together; assumption.
    + exact Hn.
  - exact I.
Qed.

Lemma rr_pass_together (fuel : nat) (tr1 tr2 : option Trainer) :
  same_course (length (ranges s1)) tr1 tr2 ->
  yielded (pass G s1 fuel tr1) = yielded (pass G s2 fuel tr2) /\
  ended (pass G s1 fuel tr1) = ended (pass G s2 fuel tr2).
Proof.
  intro Htr. unfold pass.
  apply (drive_together (next G s1) (next G s2) source source related rr_next_together).
  split; [exact I | exact Htr].
Qed.

End Together.

End RoundRobinTogether.

Module ProportionalTogether.
Import ProportionalBatchSampler.

Section Together.

Variable G : Generator.
Variables s1 s2 : Sampler.
Hypothesis Hsame : same_seeding s1 s2.

Let related := prop_related G s1.

Lemma prop_body_together (g : gstate G) (bss : list batcher) (draws : list nat)
    (tr1 tr2 : option Trainer) :
  length bss = length (ranges s1) ->
  same_course (length (ranges s1)) tr1 tr2 ->
  in_step source source related (body G s1 g bss draws, tr1) (body G s2 g bss draws, tr2).
Proof.
  intros Hlen Htr.
  destruct Hsame as [_ [Hsh [Hdl [Hbs _]]]].
  unfold body. rewrite <- Hsh, <- Hdl, <- Hbs.
  destruct draws as [|i draws']; [exact I|].
  destruct (nth_error bss i) as [b|] eqn:Hb; [|reflexivity].
  assert (Hi : (i < length bss)%nat) by (apply nth_error_Some; congruence).
  destruct (batcher_next G (shuffle s1) (drop_last s1) (Z.to_nat (batch_size s1)) b g)
    as [[[batch|] b'] g']; [|reflexivity].
  split; [reflexivity|]. split; [reflexivity|].
  split; [reflexivity|]. split; [|exact Htr].
  rewrite update_length. split; assumption.
Qed.

Lemma prop_next_together (st1 : gen G) (tr1 : option Trainer)
    (st2 : gen G) (tr2 : option Trainer) :
  related st1 tr1 st2 tr2 ->
  in_step source source related (next G s1 st1 tr1) (next G s2 st2 tr2).
Proof.
  intros [Heq [Hst Htr]]. subst st2.
  destruct Hsame as [Hr [Hsh [Hdl [Hbs Hsd]]]].
  destruct st1 as [|g bss draws i|].
  - cbn [next].
    assert (Hm : make_batch_samplers s2 = make_batch_samplers s1)
      by (unfold make_batch_samplers; rewrite Hr, Hbs; reflexivity).
    assert (Hc : batch_counts s2 = batch_counts s1)
      by (unfold batch_counts; rewrite Hr, Hbs, Hdl; reflexivity).
    rewrite Hm, Hc, <- Hsd. unfold manual_seed.
    destruct (seed_accepted (seed s1 + epoch s1)); [|reflexivity].
    destruct (make_batch_samplers s1) as [bss|e] eqn:Hm1; [|reflexivity].
    destruct (SubsetRandomSampler_iter G 0%nat (weighted (batch_counts s1))
                (seed_state G (seed s1 + epoch s1))) as [draws g].
    apply prop_body_together; [|exact Htr].
    apply (make_batch_samplers_length s1). exact Hm1.
  - destruct Hst as [Hlen Hlt]. cbn [next].
    pose proof (same_course_notify (length (ranges s1)) i tr1 tr2 Htr
                  ltac:(lia)) as Hn.
    destruct (notify tr1 i) as [tr1'|e1], (notify tr2 i) as [tr2'|e2];
      try contradiction.
    + apply prop_body_together; assumption.
    + exact Hn.
  - exact I.
Qed.

Lemma prop_pass_together (fuel : nat) (tr1 tr2 : option Trainer) :
  same_course (length (ranges s1)) tr1 tr2 ->
  yielded (pass G s1 fuel tr1) = yielded (pass G s2 fuel tr2) /\
  ended (pass G s1 fuel tr1) = ended (pass G s2 fuel tr2).
Proof.
  intro Htr. unfold pass.
  apply (drive_together (next G s1) (next G s2) source source related prop_next_together).
  split; [reflexivity|]. split; [exact I | exact Htr].
Qed.

End Together.

End ProportionalTogether.

Lemma construct_ranges (ls : list Z) (bs : Z) (dl : bool) (sd : Z) (sh : bool)
    (tr : option Trainer) (s : Sampler) :
  construct ls bs dl sd sh tr = Ok s -> ranges s = partition ls.
Proof. intro H. inversion H. reflexivity. Qed.

Lemma construct_ranges_length (ls : list Z) (bs : Z) (dl : bool) (sd : Z) (sh : bool)
    (tr : option Trainer) (s : Sampler) :
  construct ls bs dl sd sh tr = Ok s -> length (ranges s) = length ls.
Proof.
  intro H. inversion H. cbn [ranges]. apply partition_length.
Qed.

(** C4: two samplers of either class constructed with the same lengths,
    batch size, drop_last, shuffle and seed and set to the same epoch yield
    the same batches, from the same datasets, in the same order, and end
    the same way, for every consumer patience [fuel].  The trainer given
    at construction may be the same on both sides, or differ as long as its
    update cannot fail on either side. *)
Theorem passes_deterministic (G : Generator) (ls : list Z) (bs : Z) (dl sh : bool)
    (sd e : Z) (tr1 tr2 : option Trainer) (s1 s2 p1 p2 : Sampler) (fuel : nat) :
  RoundRobinBatchSampler.__init__ ls bs dl sd sh tr1 = Ok s1 ->
  RoundRobinBatchSampler.__init__ ls bs dl sd sh tr2 = Ok s2 ->
  ProportionalBatchSampler.__init__ ls bs dl sd sh tr1 = Ok p1 ->
  ProportionalBatchSampler.__init__ ls bs dl sd sh tr2 = Ok p2 ->
  same_course (length ls) tr1 tr2 ->
  (yielded (RoundRobinBatchSampler.pass G (RoundRobinBatchSampler.set_epoch s1 e) fuel tr1)
   = yielded (RoundRobinBatchSampler.pass G (RoundRobinBatchSampler.set_epoch s2 e) fuel tr2) /\
   ended (RoundRobinBatchSampler.pass G (RoundRobinBatchSampler.set_epoch s1 e) fuel tr1)
   = ended (RoundRobinBatchSampler.pass G (RoundRobinBatchSampler.set_epoch s2 e) fuel tr2)) /\
  (yielded (ProportionalBatchSampler.pass G (ProportionalBatchSampler.set_epoch p1 e) fuel tr1)
   = yielded (ProportionalBatchSampler.pass G (ProportionalBatchSampler.set_epoch p2 e) fuel tr2) /\
   ended (ProportionalBatchSampler.pass G (ProportionalBatchSampler.set_epoch p1 e) fuel tr1)
   = ended (ProportionalBatchSampler.pass G (ProportionalBatchSampler.set_epoch p2 e) fuel tr2)).
Proof.
  intros H1 H2 H3 H4 Htr.
  pose proof (construct_ranges_length ls bs dl sd sh tr1 s1 H1) as L1.
  pose proof (construct_ranges_length ls bs dl sd sh tr1 p1 H3) as L3.
  inversion H1; inversion H2; inversion H3; inversion H4; subst.
  split.
  - apply RoundRobinTogether.rr_pass_together.
    + repeat split.
    + cbn [ranges RoundRobinBatchSampler.set_epoch with_epoch] in *.
      rewrite L1. exact Htr.
  - apply ProportionalTogether.prop_pass_together.
    + repeat split.
    + cbn [ranges ProportionalBatchSampler.set_epoch with_epoch] in *.
      rewrite L3. exact Htr.
Qed.

Lemma passes_deterministic_witness :
  yielded (ProportionalBatchSampler.pass rotating
             (with_epoch (built (construct [4; 6] 2 false 0 true None)) 3) 9 None)
  = yielded (ProportionalBatchSampler.pass rotating
             (with_epoch (built (construct [4; 6] 2 false 0 true
                (Some {| training_with_dataset_dict := true;
                         dataset_names := ["a"; "b"]%string;
                         dataset_name := EmptyString |}))) 3) 9
             (Some {| training_with_dataset_dict := true;
                      dataset_names := ["a"; "b"]%string;
                      dataset_name := EmptyString |})).
Proof.
  exact (proj1 (proj2 (passes_deterministic rotating [4; 6] 2 false true 0 3 None
                         (Some {| training_with_dataset_dict := true;
                                  dataset_names := ["a"; "b"]%string;
                                  dataset_name := EmptyString |})
                         _ _ _ _ 9
                         eq_refl eq_refl eq_refl eq_refl
                         (or_intror (conj eq_refl eq_refl))))).
Defined.


(** ** Proportional: every batch of every dataset, once *)

Lemma map_nth_seq {A : Type} (d : A) (l : list A) :
  map (fun i => nth i l d) (seq 0 (length l)) = l.
Proof.
  induction l as [|x r IH]; [reflexivity|].
  cbn [length seq map nth]. f_equal.
  rewrite <- seq_shift, map_map. exact IH.
Qed.

Lemma subset_random_permutation {A : Type} (G : Generator) (d : A) (l : list A)
    (g : gstate G) :
  randperm_permutes G ->
  Permutation (fst (SubsetRandomSampler_iter G d l g)) l.
Proof.
  intro HG. unfold SubsetRandomSampler_iter.
  pose proof (HG g (length l)) as Hp.
  destruct (randperm G g (length l)) as [p g']. simpl in *.
  eapply Permutation_trans; [apply Permutation_map; exact Hp|].
  rewrite map_nth_seq. reflexivity.
Qed.

Lemma batcher_next_advances (G : Generator) (sh dl : bool) (bsz : nat)
    (rng : list Z) (b : batcher) (ys : list (list Z)) (g : gstate G) :
  randperm_permutes G -> (0 < bsz)%nat ->
  dataset_inv sh dl bsz rng b ys ->
  remaining dl bsz b <> O ->
  exists batch b' g',
    batcher_next G sh dl bsz b g = (Some batch, b', g') /\
    S (remaining dl bsz b') = remaining dl bsz b /\
    dataset_inv sh dl bsz rng b' (ys ++ [batch]).
Proof.
  intros HG Hb [p [Hp [Hsh [Hcount [Hys Hshape]]]]] Hrem.
  destruct b as [a b'|rest|]; [| |contradiction].
  - destruct Hshape as [Hrng ->]. cbn [batcher_next remaining] in *.
    rewrite Hrng in *.
    set (drawn := if sh then SubsetRandomSampler_iter G 0 rng g else (rng, g)).
    assert (Hd : Permutation (fst drawn) rng /\ (sh = false -> fst drawn = rng)).
    { subst drawn. destruct sh.
      - split; [apply subset_random_permutation; exact HG | discriminate].
      - split; [reflexivity | reflexivity]. }
    destruct drawn as [idxs g1]. cbn [fst] in Hd. destruct Hd as [Hperm Hfix].
    pose proof (Permutation_length Hperm) as Hlen.
    rewrite pull_spec by exact Hb. rewrite Hlen.
    destruct (Nat.eqb_spec (group_count dl bsz (length rng)) 0) as [H0|H0];
      [contradiction|].
    pose proof (group_count_step dl bsz (length rng) Hb H0) as Hstep.
    exists (firstn bsz idxs), (Running (skipn bsz idxs)), g1.
    split; [reflexivity|]. split.
    { cbn [remaining]. rewrite length_skipn, Hlen. lia. }
    exists idxs. split; [exact Hperm|]. split; [exact Hfix|].
    cbn [app length remaining seq map]. rewrite length_skipn, Hlen.
    split; [lia|]. split; [reflexivity|].
    f_equal. lia.
  - cbn [batcher_next remaining] in *. subst rest.
    rewrite pull_spec by exact Hb.
    destruct (Nat.eqb_spec (group_count dl bsz (length (skipn (length ys * bsz) p))) 0)
      as [H0|H0]; [contradiction|].
    pose proof (group_count_step dl bsz _ Hb H0) as Hstep.
    rewrite <- length_skipn in Hstep.
    eexists. eexists. exists g. split; [reflexivity|]. split.
    { cbn [remaining]. lia. }
    exists p. split; [exact Hp|]. split; [exact Hsh|].
    rewrite length_app. cbn [length remaining].
    split; [lia|]. split.
    + replace (length ys + 1)%nat with (S (length ys)) by lia.
      rewrite seq_S, map_app. cbn [map Nat.add]. rewrite <- Hys. reflexivity.
    + rewrite skipn_skipn. f_equal. lia.
Qed.

Lemma batches_of_snoc_same (i : nat) (out : list (list Z * nat)) (batch : list Z) :
  batches_of i (out ++ [(batch, i)]) = batches_of i out ++ [batch].
Proof.
  unfold batches_of. rewrite filter_app, map_app. cbn [filter snd].
  rewrite Nat.eqb_refl. reflexivity.
Qed.

Lemma batches_of_snoc_other (i j : nat) (out : list (list Z * nat)) (batch : list Z) :
  j <> i -> batches_of i (out ++ [(batch, j)]) = batches_of i out.
Proof.
  intro H. unfold batches_of. rewrite filter_app, map_app. cbn [filter snd].
  destruct (Nat.eqb_spec j i) as [E|_]; [contradiction|].
  cbn [map]. apply app_nil_r.
Qed.

Lemma weighted_from_bounds (k x : nat) (cs : list Z) :
  In x (ProportionalBatchSampler.weighted_from k cs) -> (k <= x < k + length cs)%nat.
Proof.
  revert k. induction cs as [|c r IH]; intros k H; [contradiction|].
  cbn [ProportionalBatchSampler.weighted_from] in H.
  apply in_app_or in H. destruct H as [H|H].
  - apply repeat_spec in H. subst x. simpl. lia.
  - apply IH in H. simpl. lia.
Qed.

Lemma weighted_from_count (k i : nat) (cs : list Z) :
  count_occ Nat.eq_dec (ProportionalBatchSampler.weighted_from k cs) i
  = if (k <=? i)%nat then Z.to_nat (nth (i - k) cs 0) else O.
Proof.
  revert k. induction cs as [|c r IH]; intro k.
  - cbn. destruct (i - k)%nat; destruct (k <=? i)%nat; reflexivity.
  - cbn [ProportionalBatchSampler.weighted_from].
    rewrite count_occ_app, IH.
    destruct (Nat.leb_spec k i) as [Hle|Hlt].
    + destruct (Nat.eq_dec i k) as [->|Hne].
      * rewrite count_occ_repeat_eq by reflexivity.
        destruct (Nat.leb_spec (S k) k) as [H|_]; [lia|].
        rewrite Nat.sub_diag. simpl. lia.
      * rewrite count_occ_repeat_neq by exact Hne.
        destruct (Nat.leb_spec (S k) i) as [_|H]; [|lia].
        replace (i - k)%nat with (S (i - S k)) by lia. reflexivity.
    + rewrite count_occ_repeat_neq by lia.
      destruct (Nat.leb_spec (S k) i) as [H|_]; [lia | reflexivity].
Qed.

Lemma weighted_from_length (k : nat) (cs : list Z) :
  Forall (fun c => 0 <= c) cs ->
  Z.of_nat (length (ProportionalBatchSampler.weighted_from k cs)) = py_sum cs.
Proof.
  intro H. revert k. induction H as [|c r Hc _ IH]; intro k; [reflexivity|].
  cbn [ProportionalBatchSampler.weighted_from].
  rewrite length_app, repeat_length, Nat2Z.inj_add, IH, py_sum_cons. lia.
Qed.

Module ProportionalFacts.
Import ProportionalBatchSampler.

Section Coverage.

Variable G : Generator.
Variable s : Sampler.
Hypothesis HG : randperm_permutes G.
Hypothesis Hbs : 0 < batch_size s.
Hypothesis Hseed : seed_accepted (seed s + epoch s) = true.

Lemma body_advances (g : gstate G) (bss : list batcher) (i : nat) (draws : list nat)
    (out : list (list Z * nat)) :
  prop_inv s bss (i :: draws) out ->
  exists batch b' g',
    body G s g bss (i :: draws)
      = (Yield batch, Suspended g' (update i b' bss) draws i) /\
    prop_inv s (update i b' bss) draws (out ++ [(batch, i)]).
Proof.
  intros [Hlen [Hall Hinv]].
  inversion Hall as [|? ? Hi Hrest]; subst.
  destruct (nth_error (ranges s) i) as [[a b]|] eqn:Hr;
    [|apply nth_error_None in Hr; lia].
  destruct (nth_error bss i) as [bi|] eqn:Hb;
    [|apply nth_error_None in Hb; lia].
  destruct (Hinv i a b bi Hr Hb) as [Hcount Hd].
  rewrite count_occ_cons_eq in Hcount by reflexivity.
  assert (Hbz : (0 < Z.to_nat (batch_size s))%nat) by lia.
  destruct (batcher_next_advances G (shuffle s) (drop_last s) (Z.to_nat (batch_size s))
              (py_range a b) bi (batches_of i out) g HG Hbz Hd ltac:(lia))
    as [batch [b' [g' [Hnext [Hrem Hd']]]]].
  exists batch, b', g'. split.
  - unfold body. rewrite Hb, Hnext. reflexivity.
  - split; [rewrite update_length; exact Hlen|]. split; [exact Hrest|].
    intros j a' b'' bj Hrj Hbj.
    destruct (Nat.eq_dec i j) as [<-|Hne].
    + rewrite update_nth_same in Hbj by lia.
      inversion Hbj; subst bj. rewrite Hr in Hrj. inversion Hrj; subst a' b''.
      rewrite batches_of_snoc_same. split; [lia | exact Hd'].
    + rewrite update_nth_other in Hbj by exact Hne.
      destruct (Hinv j a' b'' bj Hrj Hbj) as [Hc Hdj].
      rewrite count_occ_cons_neq in Hc by exact Hne.
      rewrite batches_of_snoc_other by exact Hne. split; assumption.
Qed.

Lemma prop_loop (draws : list nat) :
  forall (out : list (list Z * nat)) (g : gstate G) (bss : list batcher)
         (fuel : nat) (st : gen G) (tr0 tr : option Trainer),
    prop_inv s bss draws out ->
    notifier_safe (length (ranges s)) tr = true ->
    next G s st tr0 = (body G s g bss draws, tr) ->
    (length draws <= fuel)%nat ->
    ended (drive (next G s) source (S fuel) st tr0) = Completed /\
    final_state (drive (next G s) source (S fuel) st tr0) = Closed /\
    length (yielded (drive (next G s) source (S fuel) st tr0)) = length draws /\
    exists bss',
      prop_inv s bss' [] (out ++ yielded (drive (next G s) source (S fuel) st tr0)).
Proof.
  induction draws as [|i draws IH]; intros out g bss fuel st tr0 tr Hinv Hsafe Hnext Hfuel.
  - cbn [body] in Hnext. rewrite (drive_stop _ _ _ _ _ _ _ Hnext).
    repeat split. exists bss. cbn [yielded fst]. rewrite app_nil_r. exact Hinv.
  - destruct (body_advances g bss i draws out Hinv) as [batch [b' [g' [Hbody Hinv']]]].
    rewrite Hbody in Hnext.
    destruct (drive_yield (next G s) source fuel _ _ _ _ _ Hnext) as [Hy [He [Hf _]]].
    rewrite Hy, He, Hf. cbn [source length].
    destruct fuel as [|fuel]; [simpl in Hfuel; lia|].
    destruct Hinv as [_ [Hall _]]. inversion Hall as [|? ? Hi _]; subst.
    destruct (notifier_safe_notify _ i tr Hsafe Hi) as [tr' [Hnot Hsafe']].
    assert (Hn : next G s (Suspended g' (update i b' bss) draws i) tr
                 = (body G s g' (update i b' bss) draws, tr')).
    { cbn [next]. rewrite Hnot. reflexivity. }
    destruct (IH _ g' _ fuel _ tr tr' Hinv' Hsafe' Hn ltac:(simpl in Hfuel; lia))
      as [IHe [IHf [IHl [bss' IHi]]]].
    split; [exact IHe|]. split; [exact IHf|]. split; [rewrite IHl; reflexivity|].
    exists bss'. rewrite <- app_assoc in IHi. exact IHi.
Qed.

Lemma batch_count_nth (i : nat) (a b : Z) :
  nth_error (ranges s) i = Some (a, b) ->
  Z.to_nat (nth i (batch_counts s) 0)
  = group_count (drop_last s) (Z.to_nat (batch_size s)) (length (py_range a b)).
Proof.
  intro Hr. unfold batch_counts.
  rewrite (nth_error_nth _ _ 0 (map_nth_error _ _ _ Hr)). cbn [fst snd].
  rewrite <- group_count_Z by lia. rewrite Nat2Z.id. reflexivity.
Qed.

Lemma initial_inv (g : gstate G) :
  prop_inv s (map (fun r => Fresh (fst r) (snd r)) (ranges s))
    (fst (SubsetRandomSampler_iter G O (weighted (batch_counts s)) g)) [].
Proof.
  pose proof (subset_random_permutation G O (weighted (batch_counts s)) g HG) as Hp.
  split; [apply length_map|]. split.
  - apply Forall_forall. intros x Hx.
    apply (Permutation_in _ Hp) in Hx. apply weighted_from_bounds in Hx.
    unfold batch_counts in Hx. rewrite length_map in Hx. lia.
  - intros i a b bi Hr Hb.
    rewrite (map_nth_error _ _ _ Hr) in Hb. inversion Hb; subst bi. cbn [fst snd].
    split.
    + rewrite (proj1 (Permutation_count_occ Nat.eq_dec _ _) Hp).
      unfold weighted. rewrite weighted_from_count. cbn [Nat.leb].
      rewrite Nat.sub_0_r. cbn [remaining]. apply batch_count_nth. exact Hr.
    + exists (py_range a b). split; [reflexivity|]. split; [reflexivity|].
      cbn [length remaining Nat.add seq map batches_of filter].
      repeat split.
Qed.

Lemma pass_covers (fuel : nat) (tr : option Trainer) :
  notifier_safe (length (ranges s)) tr = true ->
  (length (weighted (batch_counts s)) < fuel)%nat ->
  ended (pass G s fuel tr) = Completed /\
  final_state (pass G s fuel tr) = Closed /\
  length (yielded (pass G s fuel tr)) = length (weighted (batch_counts s)) /\
  forall i a b,
    nth_error (ranges s) i = Some (a, b) ->
    all_groups (shuffle s) (drop_last s) (Z.to_nat (batch_size s)) (py_range a b)
      (batches_of i (yielded (pass G s fuel tr))).
Proof.
  intros Hsafe Hfuel. unfold pass, __iter__.
  destruct fuel as [|fuel]; [lia|].
  set (g0 := seed_state G (seed s + epoch s)).
  pose proof (initial_inv g0) as Hinv.
  pose proof (subset_random_length G O (weighted (batch_counts s)) g0 HG) as Hlen.
  assert (Hnext : next G s Created tr
                  = (body G s (snd (SubsetRandomSampler_iter G O (weighted (batch_counts s)) g0))
                       (map (fun r => Fresh (fst r) (snd r)) (ranges s))
                       (fst (SubsetRandomSampler_iter G O (weighted (batch_counts s)) g0)),
                     tr)).
  { cbn [next]. rewrite (manual_seed_accepted G _ Hseed).
    rewrite make_batch_samplers_positive by exact Hbs. fold g0.
    destruct (SubsetRandomSampler_iter G O (weighted (batch_counts s)) g0).
    reflexivity. }
  destruct (prop_loop _ [] _ _ fuel Created tr tr Hinv Hsafe Hnext ltac:(lia))
    as [He [Hf [Hl [bss' [Hlen' [_ Hfin]]]]]].
  split; [exact He|]. split; [exact Hf|]. split; [rewrite Hl; exact Hlen|].
  intros i a b Hr. cbn [app] in Hfin.
  destruct (nth_error bss' i) as [bi|] eqn:Hb.
  2:{ apply nth_error_None in Hb.
      assert (i < length (ranges s))%nat by (apply nth_error_Some; congruence). lia. }
  destruct (Hfin i a b bi Hr Hb) as [Hc [p [Hp [Hsh [Hcount [Hys _]]]]]].
  cbn [count_occ] in Hc. rewrite <- Hc, Nat.add_0_r in Hcount.
  exists p. split; [exact Hp|]. split; [exact Hsh|].
  rewrite <- Hcount. exact Hys.
Qed.

End Coverage.

End ProportionalFacts.

Lemma partition_widths_from (t : Z) (l : list Z) :
  map (fun r : Z * Z => snd r - fst r)
      (combine (t :: accumulate_from t l) (accumulate_from t l)) = l.
Proof.
  revert t. induction l as [|x r IH]; intro t; [reflexivity|].
  cbn [accumulate_from combine map fst snd]. f_equal; [lia | apply IH].
Qed.

Lemma partition_widths (l : list Z) :
  map (fun r : Z * Z => snd r - fst r) (partition l) = l.
Proof. unfold partition. rewrite accumulate_shift. apply partition_widths_from. Qed.

Lemma proportional_len (s : Sampler) :
  batch_size s <> 0 ->
  ProportionalBatchSampler.__len__ s
  = Ok (py_sum (map (BatchSampler_len (drop_last s) (batch_size s)) (lengths s))).
Proof.
  intro Hb. unfold ProportionalBatchSampler.__len__, BatchSampler_len, floordiv.
  destruct (Z.eqb_spec (batch_size s) 0) as [H|_]; [contradiction|].
  destruct (drop_last s); rewrite comprehension_Ok; reflexivity.
Qed.

Lemma batch_counts_constructed (ls : list Z) (bs : Z) (dl : bool) (sd : Z) (sh : bool)
    (tr : option Trainer) (s : Sampler) (e : Z) :
  Forall (fun x => 0 <= x) ls ->
  construct ls bs dl sd sh tr = Ok s ->
  ProportionalBatchSampler.batch_counts (with_epoch s e)
  = map (BatchSampler_len dl bs) ls.
Proof.
  intros Hpos H. inversion H; subst. clear H.
  unfold ProportionalBatchSampler.batch_counts.
  cbn [ranges with_epoch drop_last batch_size]. fold (partition ls).
  rewrite <- (partition_widths ls) at 2. rewrite map_map.
  apply map_ext_in. intros [a b] Hin. cbn [fst snd].
  rewrite py_range_length. f_equal.
  apply In_nth_error in Hin. destruct Hin as [i Hi].
  apply partition_nth_inv in Hi. destruct Hi as [_ [-> ->]].
  pose proof (prefix_step ls i Hpos). lia.
Qed.

Lemma batch_counts_nonneg (dl : bool) (bs : Z) (ls : list Z) :
  0 < bs -> Forall (fun x => 0 <= x) ls ->
  Forall (fun c => 0 <= c) (map (BatchSampler_len dl bs) ls).
Proof.
  intros Hb H. apply Forall_map.
  eapply Forall_impl; [|exact H]. intros x Hx. cbv beta.
  apply BatchSampler_len_nonneg; assumption.
Qed.

Lemma constructed_fields (ls : list Z) (bs : Z) (dl sh : bool) (sd e : Z)
    (tr0 : option Trainer) (s : Sampler) :
  construct ls bs dl sd sh tr0 = Ok s ->
  ranges (with_epoch s e) = partition ls /\ batch_size (with_epoch s e) = bs /\
  drop_last (with_epoch s e) = dl /\ shuffle (with_epoch s e) = sh /\
  lengths (with_epoch s e) = ls /\ seed (with_epoch s e) = sd /\
  epoch (with_epoch s e) = e.
Proof. intro Hc. inversion Hc; subst. repeat split. Qed.

Lemma constructed_pass_covers (G : Generator) (ls : list Z) (bs : Z)
    (dl sh : bool) (sd e : Z) (tr0 tr : option Trainer) (s : Sampler) (fuel : nat) :
  randperm_permutes G ->
  0 < bs ->
  Forall (fun x => 0 <= x) ls ->
  ProportionalBatchSampler.__init__ ls bs dl sd sh tr0 = Ok s ->
  seed_accepted (sd + e) = true ->
  notifier_safe (length ls) tr = true ->
  (Z.to_nat (py_sum (map (BatchSampler_len dl bs) ls)) < fuel)%nat ->
  let s' := with_epoch s e in
  let N := py_sum (map (BatchSampler_len dl bs) ls) in
  let r := ProportionalBatchSampler.pass G s' fuel tr in
  ended r = Completed /\
  final_state r = ProportionalBatchSampler.Closed /\
  Z.of_nat (length (yielded r)) = N /\
  (forall i a b,
     nth_error (ranges s') i = Some (a, b) ->
     all_groups sh dl (Z.to_nat bs) (py_range a b) (batches_of i (yielded r))).
Proof.
  intros HG Hbs Hpos Hc Hseed Hsafe Hfuel s' N r.
  pose proof (batch_counts_constructed ls bs dl sd sh tr0 s e Hpos Hc) as Hcounts.
  destruct (constructed_fields ls bs dl sh sd e tr0 s Hc)
    as [Fr [Fb [Fd [Fs [Fl [Fsd Fe]]]]]].
  fold s' in Fr, Fb, Fd, Fs, Fl, Fsd, Fe, Hcounts.
  pose proof (weighted_from_length 0 _ (batch_counts_nonneg dl bs ls Hbs Hpos)) as Hw.
  fold N in Hw.
  assert (HbsS : 0 < batch_size s') by (rewrite Fb; exact Hbs).
  assert (HsafeS : notifier_safe (length (ranges s')) tr = true).
  { rewrite Fr, partition_length. exact Hsafe. }
  assert (HfuelS : (length (ProportionalBatchSampler.weighted
                              (ProportionalBatchSampler.batch_counts s')) < fuel)%nat).
  { rewrite Hcounts. unfold ProportionalBatchSampler.weighted. fold N in Hfuel. lia. }
  assert (HseedS : seed_accepted (seed s' + epoch s') = true).
  { rewrite Fsd, Fe. exact Hseed. }
  destruct (ProportionalFacts.pass_covers G s' HG HbsS HseedS fuel tr HsafeS HfuelS)
    as [He [Hf [Hl Hall]]].
  fold r in He, Hf, Hl, Hall. rewrite Fs, Fd, Fb in Hall.
  split; [exact He|]. split; [exact Hf|]. split; [|exact Hall].
  rewrite Hl, Hcounts. exact Hw.
Qed.

(** C2: lengths non-negative, batch size positive, a seed + epoch the
    generator accepts, a trainer whose update cannot fail.  With [N] the
    sum over the datasets of floor(L/bs)
    (drop_last) or ceil(L/bs), [__len__] returns [N]; a pass the consumer
    drives to its end completes normally, so no batch sampler is found
    empty, and yields exactly [N] batches; the batches it yields from
    dataset [i] are all the groups of that dataset's (possibly shuffled)
    range, each once, in the batch sampler's order, and there are
    floor/ceil(L_i/bs) of them. *)
Theorem proportional_full_coverage (G : Generator) (ls : list Z) (bs : Z)
    (dl sh : bool) (sd e : Z) (tr0 tr : option Trainer) (s : Sampler) (fuel : nat) :
  randperm_permutes G ->
  0 < bs ->
  Forall (fun x => 0 <= x) ls ->
  ProportionalBatchSampler.__init__ ls bs dl sd sh tr0 = Ok s ->
  seed_accepted (sd + e) = true ->
  notifier_safe (length ls) tr = true ->
  (Z.to_nat (py_sum (map (BatchSampler_len dl bs) ls)) < fuel)%nat ->
  let s' := ProportionalBatchSampler.set_epoch s e in
  let N := py_sum (map (BatchSampler_len dl bs) ls) in
  let r := ProportionalBatchSampler.pass G s' fuel tr in
  ProportionalBatchSampler.__len__ s' = Ok N /\
  ended r = Completed /\
  final_state r = ProportionalBatchSampler.Closed /\
  Z.of_nat (length (yielded r)) = N /\
  (forall i a b,
     nth_error (ranges s') i = Some (a, b) ->
     all_groups sh dl (Z.to_nat bs) (py_range a b) (batches_of i (yielded r))) /\
  (forall i, (i < length ls)%nat ->
     Z.of_nat (length (batches_of i (yielded r))) = BatchSampler_len dl bs (nth i ls 0)).
Proof.
  intros HG Hbs Hpos Hc Hseed Hsafe Hfuel s' N r.
  destruct (constructed_pass_covers G ls bs dl sh sd e tr0 tr s fuel
              HG Hbs Hpos Hc Hseed Hsafe Hfuel) as [He [Hf [Hl Hall]]].
  destruct (constructed_fields ls bs dl sh sd e tr0 s Hc)
    as [Fr [Fb [Fd [Fs [Fl _]]]]].
  change (with_epoch s e) with s' in *. fold r in He, Hf, Hl, Hall.
  split.
  { rewrite proportional_len by lia. rewrite Fd, Fb, Fl. reflexivity. }
  split; [exact He|]. split; [exact Hf|]. split; [exact Hl|].
  split; [exact Hall|].
  intros i Hi.
  destruct (nth_error (ranges s') i) as [[a b]|] eqn:Hr.
  2:{ apply nth_error_None in Hr. rewrite Fr, partition_length in Hr. lia. }
  destruct (Hall i a b Hr) as [p [_ [_ Hys]]].
  rewrite Hys, length_map, length_seq, py_range_length.
  rewrite Fr in Hr.
  pose proof (map_nth_error (fun r : Z * Z => snd r - fst r) _ _ Hr) as Hw'.
  rewrite partition_widths in Hw'. cbn [fst snd] in Hw'.
  rewrite (nth_error_nth _ _ 0 Hw').
  assert (Hba : 0 <= b - a).
  { apply nth_error_In in Hw'. rewrite Forall_forall in Hpos. apply Hpos. exact Hw'. }
  rewrite group_count_Z by lia. rewrite Z2Nat.id; [reflexivity|].
  apply BatchSampler_len_nonneg; lia.
Qed.

Lemma proportional_full_coverage_witness :
  ProportionalBatchSampler.__len__
    (ProportionalBatchSampler.set_epoch (built (construct [4; 6] 2 false 0 true None)) 3)
  = Ok 5 /\
  ended (ProportionalBatchSampler.pass rotating
           (ProportionalBatchSampler.set_epoch
              (built (construct [4; 6] 2 false 0 true None)) 3) 6 None)
  = Completed.
Proof.
  pose proof (proportional_full_coverage rotating [4; 6] 2 false true 0 3 None None
                (built (construct [4; 6] 2 false 0 true None)) 6
                rotating_permutes ltac:(lia)
                ltac:(repeat constructor; lia) eq_refl eq_refl eq_refl
                ltac:(vm_compute; lia)) as H.
  cbv zeta in H. exact (conj (proj1 H) (proj1 (proj2 H))).
Defined.

(** ** Round-robin: how many batches a pass yields *)

Lemma batcher_next_remaining (G : Generator) (sh dl : bool) (bsz : nat)
    (b : batcher) (g : gstate G) :
  randperm_permutes G -> (0 < bsz)%nat ->
  (remaining dl bsz b = O /\
   fst (fst (batcher_next G sh dl bsz b g)) = None) \/
  (exists batch b' g',
     batcher_next G sh dl bsz b g = (Some batch, b', g') /\
     S (remaining dl bsz b') = remaining dl bsz b).
Proof.
  intros HG Hb.
  assert (Hpull : forall (l : list Z) (g' : gstate G),
            (group_count dl bsz (length l) = O /\
             fst (fst (pull dl bsz l, g')) = None) \/
            (exists batch b1 g1,
               (pull dl bsz l, g') = (Some batch, b1, g1) /\
               S (remaining dl bsz b1) = group_count dl bsz (length l))).
  { intros l g'. rewrite pull_spec by exact Hb.
    destruct (Nat.eqb_spec (group_count dl bsz (length l)) 0) as [H0|H0].
    - left. split; [exact H0 | reflexivity].
    - right. eexists. eexists. eexists. split; [reflexivity|].
      cbn [remaining]. rewrite length_skipn.
      rewrite (group_count_step dl bsz (length l) Hb H0). reflexivity. }
  destruct b as [a b'|rest|].
  - cbn [batcher_next remaining]. destruct sh.
    + pose proof (subset_random_length G 0 (py_range a b') g HG) as Hl.
      destruct (SubsetRandomSampler_iter G 0 (py_range a b') g) as [idxs g1].
      cbn [fst] in Hl. rewrite <- Hl. apply Hpull.
    + apply Hpull.
  - cbn [batcher_next remaining]. apply Hpull.
  - left. split; reflexivity.
Qed.

Lemma succ_mod (n p : nat) :
  (p < n)%nat ->
  (S p mod n = if (S p <? n)%nat then S p else O)%nat.
Proof.
  intro Hp. destruct (Nat.ltb_spec (S p) n) as [H|H].
  - apply Nat.mod_small. exact H.
  - replace (S p) with n by lia. apply Nat.Div0.mod_same.
Qed.

Lemma turns_away_next (n i p : nat) :
  (i < n)%nat -> (p < n)%nat -> i <> p ->
  S (turns_away n i (S p mod n)) = turns_away n i p.
Proof.
  intros Hi Hp Hne. rewrite succ_mod by exact Hp. unfold turns_away.
  destruct (Nat.ltb_spec (S p) n);
    repeat match goal with
           | |- context [(?x <=? ?y)%nat] => destruct (Nat.leb_spec x y)
           end; lia.
Qed.

Lemma turns_away_self (n p : nat) :
  (p < n)%nat ->
  turns_away n p p = O /\ S (turns_away n p (S p mod n)) = n.
Proof.
  intro Hp. rewrite succ_mod by exact Hp. unfold turns_away.
  destruct (Nat.ltb_spec (S p) n);
    repeat match goal with
           | |- context [(?x <=? ?y)%nat] => destruct (Nat.leb_spec x y)
           end; lia.
Qed.

Lemma turns_away_zero (n i p : nat) :
  (i < n)%nat -> (p < n)%nat -> turns_away n i p = O -> i = p.
Proof.
  intros Hi Hp. unfold turns_away. destruct (Nat.leb_spec p i); lia.
Qed.

Module RoundRobinCount.
Import RoundRobinBatchSampler.

Section Count.

Variable G : Generator.
Variable s : Sampler.
Hypothesis HG : randperm_permutes G.
Hypothesis Hbs : 0 < batch_size s.

Let n := length (ranges s).
Let key (i p : nat) (b : batcher) : nat :=
  (turns_away n i p
   + remaining (drop_last s) (Z.to_nat (batch_size s)) b * n)%nat.

Lemma rr_loop (K : nat) :
  forall (bss : list batcher) (p : nat) (g : gstate G) (fuel : nat)
         (st : gen G) (tr0 tr : option Trainer),
    length bss = n -> (p < n)%nat ->
    notifier_safe n tr = true ->
    next G s st tr0 = (body G s g bss p, tr) ->
    (forall i b, nth_error bss i = Some b -> (K <= key i p b)%nat) ->
    (exists i b, nth_error bss i = Some b /\ key i p b = K) ->
    (K <= fuel)%nat ->
    ended (drive (next G s) source (S fuel) st tr0) = Completed /\
    length (yielded (drive (next G s) source (S fuel) st tr0)) = K.
Proof.
  assert (Hbz : (0 < Z.to_nat (batch_size s))%nat) by lia.
  induction K as [|K IH];
    intros bss p g fuel st tr0 tr Hlen Hp Hsafe Hnext Hlow [i [b [Hi Hk]]] Hfuel.
  - assert (Hin : (i < n)%nat) by (rewrite <- Hlen; apply nth_error_Some; congruence).
    unfold key in Hk.
    assert (Hd : turns_away n i p = O) by lia.
    assert (Hr : remaining (drop_last s) (Z.to_nat (batch_size s)) b = O) by nia.
    apply turns_away_zero in Hd; [|exact Hin|exact Hp]. subst i.
    unfold body in Hnext. rewrite Hi in Hnext.
    destruct (batcher_next_remaining G (shuffle s) (drop_last s)
                (Z.to_nat (batch_size s)) b g HG Hbz)
      as [[_ Hnone]|[batch [b' [g' [_ Hs]]]]]; [|lia].
    destruct (batcher_next G (shuffle s) (drop_last s) (Z.to_nat (batch_size s)) b g)
      as [[[batch|] b'] g']; [discriminate Hnone|].
    rewrite (drive_stop _ _ _ _ _ _ _ Hnext). split; reflexivity.
  - destruct (nth_error bss p) as [bp|] eqn:Hbp;
      [|apply nth_error_None in Hbp; lia].
    pose proof (Hlow p bp Hbp) as Hkp. unfold key in Hkp.
    destruct (turns_away_self n p Hp) as [Hself Hselfnext].
    rewrite Hself in Hkp.
    destruct (batcher_next_remaining G (shuffle s) (drop_last s)
                (Z.to_nat (batch_size s)) bp g HG Hbz)
      as [[H0 _]|[batch [b' [g' [Hbn Hs]]]]]; [rewrite H0 in Hkp; simpl in Hkp; lia|].
    unfold body in Hnext. rewrite Hbp, Hbn in Hnext.
    destruct (drive_yield (next G s) source fuel _ _ _ _ _ Hnext) as [Hy [He _]].
    rewrite Hy, He. cbn [length].
    destruct fuel as [|fuel]; [lia|].
    destruct (notifier_safe_notify n p tr Hsafe Hp) as [tr' [Hnot Hsafe']].
    assert (Hp' : (S p mod n < n)%nat) by (apply Nat.mod_upper_bound; lia).
    assert (Hn : next G s (Suspended g' (update p b' bss) p) tr
                 = (body G s g' (update p b' bss) (S p mod n), tr')).
    { cbn [next]. rewrite Hnot, update_length, Hlen. reflexivity. }
    assert (Hstep : forall j bj bj',
              nth_error bss j = Some bj ->
              nth_error (update p b' bss) j = Some bj' ->
              S (key j (S p mod n) bj') = key j p bj).
    { intros j bj bj' Hj Hj'.
      assert (Hjn : (j < n)%nat) by (rewrite <- Hlen; apply nth_error_Some; congruence).
      unfold key. destruct (Nat.eq_dec j p) as [->|Hne].
      - rewrite update_nth_same in Hj' by lia.
        inversion Hj'; subst bj'. rewrite Hbp in Hj. inversion Hj; subst bj.
        rewrite Hself, <- Hs. simpl. lia.
      - rewrite update_nth_other in Hj' by lia.
        rewrite Hj in Hj'. inversion Hj'; subst bj'.
        pose proof (turns_away_next n j p Hjn Hp Hne). lia. }
    assert (Hex : forall j bj, nth_error bss j = Some bj ->
              exists bj', nth_error (update p b' bss) j = Some bj').
    { intros j bj Hj.
      destruct (nth_error (update p b' bss) j) as [bj'|] eqn:E; [eauto|].
      apply nth_error_None in E. rewrite update_length in E.
      assert (j < length bss)%nat by (apply nth_error_Some; congruence). lia. }
    assert (Hback : forall j bj', nth_error (update p b' bss) j = Some bj' ->
              exists bj, nth_error bss j = Some bj).
    { intros j bj' Hj.
      destruct (nth_error bss j) as [bj|] eqn:E; [eauto|].
      apply nth_error_None in E.
      assert (j < length (update p b' bss))%nat by (apply nth_error_Some; congruence).
      rewrite update_length in *. lia. }
    destruct (IH (update p b' bss) (S p mod n)%nat g' fuel
                (Suspended g' (update p b' bss) p) tr tr') as [IHe IHl].
    + rewrite update_length. exact Hlen.
    + exact Hp'.
    + exact Hsafe'.
    + exact Hn.
    + intros j bj' Hj'. destruct (Hback j bj' Hj') as [bj Hj].
      pose proof (Hstep j bj bj' Hj Hj'). pose proof (Hlow j bj Hj). lia.
    + destruct (Hex i b Hi) as [bi' Hi'].
      exists i, bi'. split; [exact Hi'|].
      pose proof (Hstep i b bi' Hi Hi'). lia.
    + lia.
    + split; [exact IHe | rewrite IHl; reflexivity].
Qed.

End Count.

End RoundRobinCount.

Lemma fold_min_lower (l : list Z) (a : Z) :
  fold_left Z.min l a <= a /\ forall x, In x l -> fold_left Z.min l a <= x.
Proof.
  revert a. induction l as [|y r IH]; intro a; cbn [fold_left].
  - split; [lia | intros x []].
  - destruct (IH (Z.min a y)) as [H1 H2]. split; [lia|].
    intros x [<-|Hx]; [lia | apply H2; exact Hx].
Qed.

Lemma fold_min_in (l : list Z) (a : Z) :
  fold_left Z.min l a = a \/ In (fold_left Z.min l a) l.
Proof.
  revert a. induction l as [|y r IH]; intro a; cbn [fold_left]; [left; reflexivity|].
  destruct (IH (Z.min a y)) as [H|H].
  - rewrite H. destruct (Z.min_spec a y) as [[_ E]|[_ E]]; rewrite E.
    + left. reflexivity.
    + right. left. reflexivity.
  - right. right. exact H.
Qed.

Lemma py_min_least (l : list Z) (m : Z) :
  In m l -> (forall x, In x l -> m <= x) -> py_min l = Ok m.
Proof.
  intros Hin Hlow. destruct l as [|a r]; [contradiction|].
  cbn [py_min]. f_equal.
  destruct (fold_min_lower r a) as [H1 H2].
  assert (Hle : fold_left Z.min r a <= m).
  { destruct Hin as [<-|Hin]; [exact H1 | apply H2; exact Hin]. }
  assert (Hge : m <= fold_left Z.min r a).
  { destruct (fold_min_in r a) as [E|E].
    - rewrite E. apply Hlow. left. reflexivity.
    - apply Hlow. right. exact E. }
  lia.
Qed.

Lemma round_robin_len (s : Sampler) :
  batch_size s <> 0 ->
  RoundRobinBatchSampler.__len__ s
  = (m <- py_min (map (BatchSampler_len (drop_last s) (batch_size s)) (lengths s)) ;;
     Ok (m * Z.of_nat (length (lengths s)))).
Proof.
  intro Hb. unfold RoundRobinBatchSampler.__len__, BatchSampler_len, floordiv.
  destruct (Z.eqb_spec (batch_size s) 0) as [H|_]; [contradiction|].
  destruct (drop_last s); rewrite comprehension_Ok; reflexivity.
Qed.

Lemma constructed_remaining (ls : list Z) (bs : Z) (dl : bool) (sd : Z) (sh : bool)
    (tr : option Trainer) (s : Sampler) (i : nat) (b : batcher) :
  0 < bs -> Forall (fun x => 0 <= x) ls ->
  construct ls bs dl sd sh tr = Ok s ->
  nth_error (map (fun r : Z * Z => Fresh (fst r) (snd r)) (ranges s)) i = Some b ->
  (i < length ls)%nat /\
  remaining dl (Z.to_nat bs) b = Z.to_nat (BatchSampler_len dl bs (nth i ls 0)).
Proof.
  intros Hbs Hpos Hc Hb.
  rewrite (construct_ranges ls bs dl sd sh tr s Hc), nth_error_map in Hb.
  destruct (nth_error (partition ls) i) as [[a c]|] eqn:Hr;
    [|simpl in Hb; discriminate Hb].
  cbn [option_map fst snd] in Hb. inversion Hb; subst b.
  pose proof (map_nth_error (fun r : Z * Z => snd r - fst r) _ _ Hr) as Hw.
  rewrite partition_widths in Hw. cbn [fst snd] in Hw.
  split; [apply nth_error_Some; congruence|].
  rewrite (nth_error_nth _ _ 0 Hw).
  assert (Hca : 0 <= c - a).
  { apply nth_error_In in Hw. rewrite Forall_forall in Hpos. apply Hpos. exact Hw. }
  cbn [remaining]. rewrite py_range_length. apply group_count_Z; lia.
Qed.

Lemma rr_pass_count (G : Generator) (ls : list Z) (bs : Z)
    (dl sh : bool) (sd e : Z) (tr0 tr : option Trainer) (s : Sampler)
    (fuel : nat) (m : Z) (j : nat) :
  randperm_permutes G ->
  0 < bs ->
  Forall (fun x => 0 <= x) ls ->
  RoundRobinBatchSampler.__init__ ls bs dl sd sh tr0 = Ok s ->
  seed_accepted (sd + e) = true ->
  notifier_safe (length ls) tr = true ->
  (j < length ls)%nat ->
  BatchSampler_len dl bs (nth j ls 0) = m ->
  (forall i, (i < length ls)%nat -> m <= BatchSampler_len dl bs (nth i ls 0)) ->
  (forall i, (i < j)%nat -> m < BatchSampler_len dl bs (nth i ls 0)) ->
  (Z.to_nat m * length ls + j < fuel)%nat ->
  let s' := RoundRobinBatchSampler.set_epoch s e in
  ended (RoundRobinBatchSampler.pass G s' fuel tr) = Completed /\
  Z.of_nat (length (yielded (RoundRobinBatchSampler.pass G s' fuel tr)))
  = m * Z.of_nat (length ls) + Z.of_nat j.
Proof.
  intros HG Hbs Hpos Hc Hseed Hsafe Hj Hm Hlow Hfirst Hfuel s'.
  pose proof (construct_ranges_length ls bs dl sd sh tr0 s Hc) as Hrl.
  assert (Hfields : ranges s' = ranges s /\ batch_size s' = bs /\
                    drop_last s' = dl /\ lengths s' = ls).
  { inversion Hc; subst. repeat split. }
  destruct Hfields as [Fr [Fb [Fd Fl]]].
  assert (Hm0 : 0 <= m).
  { subst m. apply BatchSampler_len_nonneg; [exact Hbs|].
    rewrite Forall_forall in Hpos. apply Hpos. apply nth_In. exact Hj. }
  unfold RoundRobinBatchSampler.pass, RoundRobinBatchSampler.__iter__.
  destruct fuel as [|fuel]; [lia|].
  set (bss0 := map (fun r : Z * Z => Fresh (fst r) (snd r)) (ranges s)).
  assert (Hlen0 : length bss0 = length (ranges s')).
  { subst bss0. rewrite length_map, Fr. reflexivity. }
  assert (Hnext : RoundRobinBatchSampler.next G s' RoundRobinBatchSampler.Created tr
                  = (RoundRobinBatchSampler.body G s'
                       (seed_state G (seed s' + epoch s')) bss0 0, tr)).
  { assert (Hsd : seed s = sd) by (inversion Hc; reflexivity).
    assert (HseedS : seed_accepted (seed s' + epoch s') = true).
    { unfold s', RoundRobinBatchSampler.set_epoch. cbn [with_epoch seed epoch].
      rewrite Hsd. exact Hseed. }
    cbn [RoundRobinBatchSampler.next]. rewrite (manual_seed_accepted G _ HseedS).
    rewrite make_batch_samplers_positive by lia. rewrite Fr. fold bss0.
    destruct bss0 as [|b0 r0]; [|reflexivity].
    rewrite Fr, Hrl in Hlen0. cbn [length] in Hlen0. lia. }
  assert (Hkey : forall i b, nth_error bss0 i = Some b ->
            (i < length ls)%nat /\
            remaining (drop_last s') (Z.to_nat (batch_size s')) b
            = Z.to_nat (BatchSampler_len dl bs (nth i ls 0))).
  { intros i b Hb. rewrite Fd, Fb.
    apply (constructed_remaining ls bs dl sd sh tr0 s i b Hbs Hpos Hc Hb). }
  assert (Hbs' : 0 < batch_size s') by lia.
  destruct (RoundRobinCount.rr_loop G s' HG Hbs' (Z.to_nat m * length ls + j)%nat
              bss0 0%nat (seed_state G (seed s' + epoch s')) fuel
              RoundRobinBatchSampler.Created tr tr) as [He Hl].
  - exact Hlen0.
  - rewrite Fr, Hrl. lia.
  - rewrite Fr, Hrl. exact Hsafe.
  - exact Hnext.
  - intros i b Hb. destruct (Hkey i b Hb) as [Hi Hr]. rewrite Hr, Fr, Hrl.
    unfold turns_away. cbn [Nat.leb]. rewrite Nat.sub_0_r.
    pose proof (Hlow i Hi) as Hge.
    destruct (Z.eq_dec (BatchSampler_len dl bs (nth i ls 0)) m) as [E|E].
    + rewrite E. destruct (Nat.lt_ge_cases i j) as [Hlt|Hle]; [|lia].
      pose proof (Hfirst i Hlt). lia.
    + assert (S (Z.to_nat m) <= Z.to_nat (BatchSampler_len dl bs (nth i ls 0%Z)))%nat
        by lia.
      nia.
  - destruct (nth_error bss0 j) as [bj|] eqn:Hbj.
    2:{ apply nth_error_None in Hbj. rewrite Hlen0, Fr, Hrl in Hbj. lia. }
    exists j, bj. split; [exact Hbj|].
    destruct (Hkey j bj Hbj) as [_ Hr]. rewrite Hr, Hm, Fr, Hrl.
    unfold turns_away. cbn [Nat.leb]. lia.
  - lia.
  - split; [exact He|]. rewrite Hl. nia.
Qed.

(** X1: the length of a round-robin pass in general, for a seed + epoch
    the generator accepts.  With [m] the least batch
    count and [j] the first dataset that has it, the pass yields
    [m * n + j] batches: [m] full cycles, and the datasets before [j] once
    more before dataset [j] is found exhausted.  [__len__] returns
    [m * n]. *)
Theorem round_robin_yield_count (G : Generator) (ls : list Z) (bs : Z)
    (dl sh : bool) (sd e : Z) (tr0 tr : option Trainer) (s : Sampler)
    (fuel : nat) (m : Z) (j : nat) :
  randperm_permutes G ->
  0 < bs ->
  Forall (fun x => 0 <= x) ls ->
  RoundRobinBatchSampler.__init__ ls bs dl sd sh tr0 = Ok s ->
  seed_accepted (sd + e) = true ->
  notifier_safe (length ls) tr = true ->
  (j < length ls)%nat ->
  BatchSampler_len dl bs (nth j ls 0) = m ->
  (forall i, (i < length ls)%nat -> m <= BatchSampler_len dl bs (nth i ls 0)) ->
  (forall i, (i < j)%nat -> m < BatchSampler_len dl bs (nth i ls 0)) ->
  (Z.to_nat m * length ls + j < fuel)%nat ->
  let s' := RoundRobinBatchSampler.set_epoch s e in
  RoundRobinBatchSampler.__len__ s' = Ok (m * Z.of_nat (length ls)) /\
  ended (RoundRobinBatchSampler.pass G s' fuel tr) = Completed /\
  Z.of_nat (length (yielded (RoundRobinBatchSampler.pass G s' fuel tr)))
  = m * Z.of_nat (length ls) + Z.of_nat j.
Proof.
  intros HG Hbs Hpos Hc Hseed Hsafe Hj Hm Hlow Hfirst Hfuel s'.
  pose proof (construct_ranges_length ls bs dl sd sh tr0 s Hc) as Hrl.
  assert (Hfields : ranges s' = ranges s /\ batch_size s' = bs /\
                    drop_last s' = dl /\ lengths s' = ls).
  { inversion Hc; subst. repeat split. }
  destruct Hfields as [Fr [Fb [Fd Fl]]].
  assert (Hm0 : 0 <= m).
  { subst m. apply BatchSampler_len_nonneg; [exact Hbs|].
    rewrite Forall_forall in Hpos. apply Hpos. apply nth_In. exact Hj. }
  split.
  { rewrite round_robin_len by lia. rewrite Fd, Fb, Fl.
    rewrite (py_min_least _ m); [reflexivity| |].
    - subst m. apply in_map. apply nth_In. exact Hj.
    - intros x Hx. apply in_map_iff in Hx. destruct Hx as [l [<- Hl]].
      destruct (In_nth _ _ 0 Hl) as [i [Hi <-]]. apply Hlow. exact Hi. }
  apply (rr_pass_count G ls bs dl sh sd e tr0 tr s fuel m j); assumption.
Qed.

Lemma round_robin_yield_count_witness :
  Z.of_nat (length (yielded (RoundRobinBatchSampler.pass rotating
     (RoundRobinBatchSampler.set_epoch (built (construct [6; 4] 2 false 0 true None)) 1)
     6 None)))
  = 2 * 2 + 1.
Proof.
  refine (proj2 (proj2 (round_robin_yield_count rotating [6; 4] 2 false true 0 1 None None
                  (built (construct [6; 4] 2 false 0 true None)) 6 2 1
                  rotating_permutes _ _ eq_refl eq_refl eq_refl _ eq_refl _ _ _))).
  - lia.
  - repeat constructor; lia.
  - simpl; lia.
  - intros i Hi. destruct i as [|[|i]]; [vm_compute; discriminate | vm_compute; discriminate | simpl in Hi; lia].
  - intros i Hi. destruct i as [|i]; [vm_compute; reflexivity | lia].
  - vm_compute. lia.
Defined.

(** ** Invariants of a driven generator *)

Section DriveInvariant.

Context {St : Type}.
Variable next : St -> option Trainer -> signal * St * option Trainer.
Variable tag : St -> nat.

Lemma drive_cases (fuel : nat) (st : St) (tr : option Trainer) :
  (exists batch st' tr',
     next st tr = (Yield batch, st', tr') /\
     yielded (drive next tag (S fuel) st tr)
       = (batch, tag st') :: yielded (drive next tag fuel st' tr') /\
     ended (drive next tag (S fuel) st tr) = ended (drive next tag fuel st' tr') /\
     final_trainer (drive next tag (S fuel) st tr)
       = final_trainer (drive next tag fuel st' tr')) \/
  (exists st' tr',
     next st tr = (StopIteration, st', tr') /\
     drive next tag (S fuel) st tr = ([], Completed, st', tr')) \/
  (exists e st' tr',
     next st tr = (Error e, st', tr') /\
     drive next tag (S fuel) st tr = ([], Failed e, st', tr')).
Proof.
  destruct (next st tr) as [[[batch| |e] st'] tr'] eqn:H.
  - left. exists batch, st', tr'. split; [reflexivity|].
    destruct (drive_yield next tag fuel _ _ _ _ _ H) as [Hy [He [_ Ht]]].
    auto.
  - right. left. exists st', tr'. split; [reflexivity|].
    apply (drive_stop next tag fuel _ _ _ _ H).
  - right. right. exists e, st', tr'. split; [reflexivity|].
    apply (drive_error next tag fuel _ _ _ _ _ H).
Qed.

Lemma drive_all (P : list Z * nat -> Prop) :
  (forall st tr batch st' tr',
     next st tr = (Yield batch, st', tr') -> P (batch, tag st')) ->
  forall fuel st tr, Forall P (yielded (drive next tag fuel st tr)).
Proof.
  intros HP. induction fuel as [|fuel IH]; intros st tr; [constructor|].
  destruct (drive_cases fuel st tr)
    as [[batch [st' [tr' [Hn [Hy _]]]]]|[[st' [tr' [_ Hd]]]|[e [st' [tr' [_ Hd]]]]]].
  - rewrite Hy. constructor; [apply (HP _ _ _ _ _ Hn) | apply IH].
  - rewrite Hd. constructor.
  - rewrite Hd. constructor.
Qed.

Variable Inv : St -> option Trainer -> list (list Z * nat) -> Prop.
Variable Q : list (list Z * nat) -> Prop.
Hypothesis Inv_Q : forall st tr out, Inv st tr out -> Q out.
Hypothesis Inv_step : forall st tr out batch st' tr',
  Inv st tr out -> next st tr = (Yield batch, st', tr') ->
  Inv st' tr' (out ++ [(batch, tag st')]).

Lemma drive_invariant (fuel : nat) :
  forall st tr out,
    Inv st tr out -> Q (out ++ yielded (drive next tag fuel st tr)).
Proof.
  induction fuel as [|fuel IH]; intros st tr out HI.
  - cbn. rewrite app_nil_r. apply (Inv_Q _ _ _ HI).
  - destruct (drive_cases fuel st tr)
      as [[batch [st' [tr' [Hn [Hy _]]]]]|[[st' [tr' [_ Hd]]]|[e [st' [tr' [_ Hd]]]]]].
    + rewrite Hy.
      replace (out ++ (batch, tag st') :: yielded (drive next tag fuel st' tr'))
        with ((out ++ [(batch, tag st')]) ++ yielded (drive next tag fuel st' tr'))
        by (rewrite <- app_assoc; reflexivity).
      apply IH. apply (Inv_step _ _ _ _ _ _ HI Hn).
    + rewrite Hd. cbn. rewrite app_nil_r. apply (Inv_Q _ _ _ HI).
    + rewrite Hd. cbn. rewrite app_nil_r. apply (Inv_Q _ _ _ HI).
Qed.

End DriveInvariant.

(** ** The size of every batch *)

Lemma pull_well_sized (dl : bool) (bsz : nat) (rest : list Z) (batch : list Z)
    (b' : batcher) :
  (0 < bsz)%nat ->
  pull dl bsz rest = (Some batch, b') -> well_sized dl bsz batch.
Proof.
  intros Hb H. rewrite pull_spec in H by exact Hb.
  destruct (Nat.eqb_spec (group_count dl bsz (length rest)) 0) as [H0|H0];
    [discriminate H|].
  inversion H; subst. clear H.
  pose proof (group_count_zero dl bsz (length rest) Hb) as Hz.
  unfold well_sized. rewrite length_firstn.
  destruct dl.
  - assert (bsz <= length rest)%nat by lia. split; [lia | intros _; lia].
  - assert (length rest <> 0)%nat by lia. split; [lia | discriminate].
Qed.

Lemma batcher_next_well_sized (G : Generator) (sh dl : bool) (bsz : nat)
    (b b' : batcher) (g g' : gstate G) (batch : list Z) :
  (0 < bsz)%nat ->
  batcher_next G sh dl bsz b g = (Some batch, b', g') -> well_sized dl bsz batch.
Proof.
  intros Hb H. destruct b as [a c|rest|]; cbn [batcher_next] in H.
  - destruct (if sh then SubsetRandomSampler_iter G 0 (py_range a c) g
              else (py_range a c, g)) as [idxs g1].
    destruct (pull dl bsz idxs) as [r b1] eqn:Hp. inversion H; subst.
    apply (pull_well_sized dl bsz idxs batch b' Hb Hp).
  - destruct (pull dl bsz rest) as [r b1] eqn:Hp. inversion H; subst.
    apply (pull_well_sized dl bsz rest batch b' Hb Hp).
  - discriminate H.
Qed.

Lemma rr_body_well_sized (G : Generator) (s : Sampler) (g : gstate G)
    (bss : list batcher) (i : nat) (batch : list Z)
    (st' : RoundRobinBatchSampler.gen G) :
  0 < batch_size s ->
  RoundRobinBatchSampler.body G s g bss i = (Yield batch, st') ->
  well_sized (drop_last s) (Z.to_nat (batch_size s)) batch.
Proof.
  intros Hb H. unfold RoundRobinBatchSampler.body in H.
  destruct (nth_error bss i) as [b|]; [|discriminate H].
  destruct (batcher_next G (shuffle s) (drop_last s) (Z.to_nat (batch_size s)) b g)
    as [[[batch0|] b'] g'] eqn:Hn; [|discriminate H].
  inversion H; subst.
  assert (Hbz : (0 < Z.to_nat (batch_size s))%nat) by lia.
  apply (batcher_next_well_sized G _ _ _ _ _ _ _ _ Hbz Hn).
Qed.

Lemma prop_body_well_sized (G : Generator) (s : Sampler) (g : gstate G)
    (bss : list batcher) (draws : list nat) (batch : list Z)
    (st' : ProportionalBatchSampler.gen G) :
  0 < batch_size s ->
  ProportionalBatchSampler.body G s g bss draws = (Yield batch, st') ->
  well_sized (drop_last s) (Z.to_nat (batch_size s)) batch.
Proof.
  intros Hb H. unfold ProportionalBatchSampler.body in H.
  destruct draws as [|i draws']; [discriminate H|].
  destruct (nth_error bss i) as [b|]; [|discriminate H].
  destruct (batcher_next G (shuffle s) (drop_last s) (Z.to_nat (batch_size s)) b g)
    as [[[batch0|] b'] g'] eqn:Hn; [|discriminate H].
  inversion H; subst.
  assert (Hbz : (0 < Z.to_nat (batch_size s))%nat) by lia.
  apply (batcher_next_well_sized G _ _ _ _ _ _ _ _ Hbz Hn).
Qed.

(** X3: with a positive batch size, every batch either sampler yields is
    non-empty and holds at most [batch_size] indices, and exactly
    [batch_size] under drop_last, whatever the lengths, the generator, the
    trainer and the point at which the consumer stops. *)
Theorem every_batch_well_sized (G : Generator) (s : Sampler) (fuel : nat)
    (tr : option Trainer) :
  0 < batch_size s ->
  Forall (fun x => well_sized (drop_last s) (Z.to_nat (batch_size s)) (fst x))
         (yielded (RoundRobinBatchSampler.pass G s fuel tr)) /\
  Forall (fun x => well_sized (drop_last s) (Z.to_nat (batch_size s)) (fst x))
         (yielded (ProportionalBatchSampler.pass G s fuel tr)).
Proof.
  intro Hb. split.
  - apply drive_all. intros st tr1 batch st' tr' H. cbn [fst].
    destruct st as [|g bss i|]; cbn [RoundRobinBatchSampler.next] in H.
    + destruct (manual_seed G (seed s + epoch s)) as [g0|e0]; [|discriminate H].
      destruct (make_batch_samplers s) as [[|b0 bss]|e]; try discriminate H.
      inversion H. eapply rr_body_well_sized; eauto.
    + destruct (notify tr1 i) as [tr2|e]; [|discriminate H].
      inversion H. eapply rr_body_well_sized; eauto.
    + discriminate H.
  - apply drive_all. intros st tr1 batch st' tr' H. cbn [fst].
    destruct st as [|g bss draws i|]; cbn [ProportionalBatchSampler.next] in H.
    + destruct (manual_seed G (seed s + epoch s)) as [g0|e0]; [|discriminate H].
      destruct (make_batch_samplers s) as [bss|e]; [|discriminate H].
      destruct (SubsetRandomSampler_iter G 0%nat
                  (ProportionalBatchSampler.weighted
                     (ProportionalBatchSampler.batch_counts s))
                  g0) as [draws g].
      inversion H. eapply prop_body_well_sized; eauto.
    + destruct (notify tr1 i) as [tr2|e]; [|discriminate H].
      inversion H. eapply prop_body_well_sized; eauto.
    + discriminate H.
Qed.

Lemma every_batch_well_sized_witness :
  Forall (fun x => well_sized true 2 (fst x))
         (yielded (RoundRobinBatchSampler.pass rotating
                     (built (construct [5; 4] 2 true 0 true None)) 9 None)).
Proof.
  exact (proj1 (every_batch_well_sized rotating
                  (built (construct [5; 4] 2 true 0 true None)) 9 None
                  ltac:(simpl; lia))).
Defined.

(** ** The declared lengths, and the seed of a pass *)

(** X10: when [__len__] returns and when it raises.  With no dataset the
    round-robin length raises [ValueError] and the proportional one is 0.
    With datasets and a batch size of zero both raise
    [ZeroDivisionError].  Otherwise, also for a negative batch size, the
    round-robin length is the least per-dataset count times the number of
    datasets and the proportional one is the sum of the counts. *)
Theorem len_behaviour (s : Sampler) :
  let counts := map (BatchSampler_len (drop_last s) (batch_size s)) (lengths s) in
  (lengths s = [] ->
     RoundRobinBatchSampler.__len__ s = Raise ValueError /\
     ProportionalBatchSampler.__len__ s = Ok 0) /\
  (lengths s <> [] -> batch_size s = 0 ->
     RoundRobinBatchSampler.__len__ s = Raise ZeroDivisionError /\
     ProportionalBatchSampler.__len__ s = Raise ZeroDivisionError) /\
  (lengths s <> [] -> batch_size s <> 0 ->
     exists m,
       In m counts /\ (forall c, In c counts -> m <= c) /\
       RoundRobinBatchSampler.__len__ s = Ok (m * Z.of_nat (length (lengths s))) /\
       ProportionalBatchSampler.__len__ s = Ok (py_sum counts)).
Proof.
  intro counts. split; [|split].
  - intro H. unfold RoundRobinBatchSampler.__len__, ProportionalBatchSampler.__len__.
    rewrite H. destruct (drop_last s); split; reflexivity.
  - intros Hne Hb.
    unfold RoundRobinBatchSampler.__len__, ProportionalBatchSampler.__len__, floordiv.
    rewrite Hb. destruct (lengths s) as [|x r]; [congruence|].
    destruct (drop_last s); split; reflexivity.
  - intros Hne Hb.
    rewrite round_robin_len, proportional_len by exact Hb. fold counts.
    destruct counts as [|c0 r] eqn:Hc.
    { subst counts. destruct (lengths s); [congruence | discriminate Hc]. }
    exists (fold_left Z.min r c0).
    destruct (fold_min_lower r c0) as [H1 H2].
    split; [|split; [|split; reflexivity]].
    + destruct (fold_min_in r c0) as [E|E]; [rewrite E; left; reflexivity | right; exact E].
    + intros c [<-|Hin]; [exact H1 | apply H2; exact Hin].
Qed.

(** X6: a pass reads seed and epoch only through their sum.  Two samplers
    of the same class and parameters whose seed plus epoch coincide yield
    the same batches in the same order, so [set_epoch] on one seed can
    reproduce the passes of another seed. *)
Theorem seed_and_epoch_add (G : Generator) (ls : list Z) (bs : Z) (dl sh : bool)
    (sd1 e1 sd2 e2 : Z) (tr : option Trainer) (s1 s2 p1 p2 : Sampler) (fuel : nat) :
  RoundRobinBatchSampler.__init__ ls bs dl sd1 sh tr = Ok s1 ->
  RoundRobinBatchSampler.__init__ ls bs dl sd2 sh tr = Ok s2 ->
  ProportionalBatchSampler.__init__ ls bs dl sd1 sh tr = Ok p1 ->
  ProportionalBatchSampler.__init__ ls bs dl sd2 sh tr = Ok p2 ->
  sd1 + e1 = sd2 + e2 ->
  (yielded (RoundRobinBatchSampler.pass G (RoundRobinBatchSampler.set_epoch s1 e1) fuel tr)
   = yielded (RoundRobinBatchSampler.pass G (RoundRobinBatchSampler.set_epoch s2 e2) fuel tr) /\
   ended (RoundRobinBatchSampler.pass G (RoundRobinBatchSampler.set_epoch s1 e1) fuel tr)
   = ended (RoundRobinBatchSampler.pass G (RoundRobinBatchSampler.set_epoch s2 e2) fuel tr)) /\
  (yielded (ProportionalBatchSampler.pass G (ProportionalBatchSampler.set_epoch p1 e1) fuel tr)
   = yielded (ProportionalBatchSampler.pass G (ProportionalBatchSampler.set_epoch p2 e2) fuel tr) /\
   ended (ProportionalBatchSampler.pass G (ProportionalBatchSampler.set_epoch p1 e1) fuel tr)
   = ended (ProportionalBatchSampler.pass G (ProportionalBatchSampler.set_epoch p2 e2) fuel tr)).
Proof.
  intros H1 H2 H3 H4 Hsum.
  inversion H1; inversion H2; inversion H3; inversion H4; subst.
  split.
  - apply RoundRobinTogether.rr_pass_together; [|left; reflexivity].
    repeat split.
    + cbn [seed epoch RoundRobinBatchSampler.set_epoch with_epoch].
      rewrite Hsum. reflexivity.
    + intros _. exact Hsum.
  - apply ProportionalTogether.prop_pass_together; [|left; reflexivity].
    repeat split. exact Hsum.
Qed.

Lemma seed_and_epoch_add_witness :
  yielded (ProportionalBatchSampler.pass rotating
             (with_epoch (built (construct [4; 6] 2 false 5 true None)) 1) 9 None)
  = yielded (ProportionalBatchSampler.pass rotating
             (with_epoch (built (construct [4; 6] 2 false 2 true None)) 4) 9 None).
Proof.
  exact (proj1 (proj2 (seed_and_epoch_add rotating [4; 6] 2 false true 5 1 2 4 None
                         _ _ _ _ 9 eq_refl eq_refl eq_refl eq_refl eq_refl))).
Defined.

(** ** What a pass does to the trainer *)

Lemma only_slot_written_refl (tr : option Trainer) : only_slot_written tr tr.
Proof. destruct tr as [t|]; simpl; auto. Qed.

Lemma only_slot_written_trans (a b c : option Trainer) :
  only_slot_written a b -> only_slot_written b c -> only_slot_written a c.
Proof.
  destruct a as [x|], b as [y|], c as [z|]; simpl; try tauto.
  intros [F1 [N1 U1]] [F2 [N2 U2]].
  split; [congruence|]. split; [congruence|].
  intro H. rewrite <- (U1 H). apply U2. rewrite (U1 H). exact H.
Qed.

Lemma notify_only_slot (tr tr' : option Trainer) (i : nat) :
  notify tr i = Ok tr' -> only_slot_written tr tr'.
Proof.
  destruct tr as [t|]; simpl; [|intro H; inversion H; exact I].
  destruct (training_with_dataset_dict t) eqn:Hf.
  - destruct (nth_error (dataset_names t) i) as [name|]; [|discriminate].
    intro H. inversion H; subst. simpl. rewrite Hf. repeat split. discriminate.
  - intro H. inversion H; subst. simpl. auto.
Qed.

Lemma notify_active (tr : option Trainer) (i : nat) :
  active tr ->
  match notify tr i with
  | Ok tr' =>
      active tr' /\ names_of tr' = names_of tr /\
      (i < length (names_of tr))%nat /\
      exists t', tr' = Some t' /\
                 nth_error (names_of tr) i = Some (dataset_name t')
  | Raise _ => (length (names_of tr) <= i)%nat
  end.
Proof.
  intros [t [-> Hf]]. cbn [notify names_of]. rewrite Hf.
  destruct (nth_error (dataset_names t) i) as [name|] eqn:Hn.
  - split; [eexists; split; [reflexivity | exact Hf]|].
    split; [reflexivity|].
    split; [apply nth_error_Some; congruence|].
    eexists. split; reflexivity.
  - apply nth_error_None. exact Hn.
Qed.

Lemma notify_raises (tr : option Trainer) (i : nat) (e : exn) :
  notify tr i = Raise e -> e = IndexError.
Proof.
  destruct tr as [t|]; cbn [notify]; [|discriminate].
  destruct (training_with_dataset_dict t); [|discriminate].
  destruct (nth_error (dataset_names t) i); [discriminate|].
  intro H. inversion H. reflexivity.
Qed.

Section TrainerUpdates.

Context {St : Type}.
Variable next : St -> option Trainer -> signal * St * option Trainer.
Variable tag : St -> nat.
Variable suspended : St -> bool.
Hypothesis Hres : resumes_with_update next tag suspended.

Lemma next_only_slot (st : St) (tr : option Trainer) :
  only_slot_written tr (snd (next st tr)).
Proof.
  destruct Hres as [_ [Hrun Hsus]].
  destruct (suspended st) eqn:Hs.
  - specialize (Hsus st tr Hs).
    destruct (notify tr (tag st)) as [tr'|e] eqn:Hn.
    + rewrite Hsus. apply (notify_only_slot _ _ _ Hn).
    + rewrite Hsus. apply only_slot_written_refl.
  - rewrite (Hrun st tr Hs). apply only_slot_written_refl.
Qed.

Lemma drive_only_slot (fuel : nat) :
  forall st tr, only_slot_written tr (final_trainer (drive next tag fuel st tr)).
Proof.
  induction fuel as [|fuel IH]; intros st tr; [apply only_slot_written_refl|].
  pose proof (next_only_slot st tr) as Hstep.
  destruct (drive_cases next tag fuel st tr)
    as [[batch [st' [tr' [Hn [_ [_ Ht]]]]]]|[[st' [tr' [Hn Hd]]]|[e [st' [tr' [Hn Hd]]]]]];
    rewrite Hn in Hstep; cbn [snd] in Hstep.
  - rewrite Ht. apply (only_slot_written_trans _ _ _ Hstep (IH st' tr')).
  - rewrite Hd. exact Hstep.
  - rewrite Hd. exact Hstep.
Qed.

Lemma drive_last_name (fuel : nat) :
  forall st tr,
    suspended st = true -> active tr ->
    ended (drive next tag fuel st tr) = Completed ->
    exists t',
      final_trainer (drive next tag fuel st tr) = Some t' /\
      nth_error (names_of tr)
        (last (tag st :: map snd (yielded (drive next tag fuel st tr))) O)
      = Some (dataset_name t').
Proof.
  destruct Hres as [Hy [_ Hsus]].
  induction fuel as [|fuel IH]; intros st tr Hs Ha He; [discriminate He|].
  specialize (Hsus st tr Hs).
  pose proof (notify_active tr (tag st) Ha) as Hna.
  destruct (notify tr (tag st)) as [tr1|e].
  2:{ rewrite (drive_error next tag fuel _ _ _ _ _ Hsus) in He. discriminate He. }
  destruct Hna as [Ha1 [Hnames [_ [t1 [Ht1 Hname]]]]].
  destruct (drive_cases next tag fuel st tr)
    as [[batch [st' [tr' [Hn [Hyd [Hed Htd]]]]]]|[[st' [tr' [Hn Hd]]]|[e [st' [tr' [Hn Hd]]]]]];
    rewrite Hn in Hsus; cbn [snd] in Hsus; subst tr'.
  - rewrite Hed in He.
    destruct (IH st' tr1 (Hy _ _ _ _ _ Hn) Ha1 He) as [t' [Hf Hl]].
    exists t'. rewrite Htd, Hyd. split; [exact Hf|].
    rewrite <- Hnames. exact Hl.
  - rewrite Hd. exists t1. split; [exact Ht1 | exact Hname].
  - rewrite Hd in He. discriminate He.
Qed.

Lemma drive_named_before (fuel : nat) :
  forall st tr,
    suspended st = true -> active tr ->
    Forall (fun i => (i < length (names_of tr))%nat)
           (removelast (tag st :: map snd (yielded (drive next tag fuel st tr)))).
Proof.
  destruct Hres as [Hy [_ Hsus]].
  induction fuel as [|fuel IH]; intros st tr Hs Ha; [constructor|].
  specialize (Hsus st tr Hs).
  pose proof (notify_active tr (tag st) Ha) as Hna.
  destruct (notify tr (tag st)) as [tr1|e].
  2:{ rewrite (drive_error next tag fuel _ _ _ _ _ Hsus). constructor. }
  destruct Hna as [Ha1 [Hnames [Hlt _]]].
  destruct (drive_cases next tag fuel st tr)
    as [[batch [st' [tr' [Hn [Hyd _]]]]]|[[st' [tr' [Hn Hd]]]|[e [st' [tr' [Hn Hd]]]]]];
    rewrite Hn in Hsus; cbn [snd] in Hsus; subst tr'.
  - rewrite Hyd. cbn [map snd].
    change (removelast (tag st :: tag st' :: map snd (yielded (drive next tag fuel st' tr1))))
      with (tag st :: removelast (tag st' :: map snd (yielded (drive next tag fuel st' tr1)))).
    constructor; [exact Hlt|].
    rewrite <- Hnames. apply IH; [apply (Hy _ _ _ _ _ Hn) | exact Ha1].
  - rewrite Hd. constructor.
  - rewrite Hd. constructor.
Qed.

Lemma drive_unnamed_fails (fuel : nat) :
  forall st tr,
    suspended st = true -> active tr ->
    (length (names_of tr)
     <= last (tag st :: map snd (yielded (drive next tag fuel st tr))) O)%nat ->
    (length (yielded (drive next tag fuel st tr)) < fuel)%nat ->
    ended (drive next tag fuel st tr) = Failed IndexError.
Proof.
  destruct Hres as [Hy [_ Hsus]].
  induction fuel as [|fuel IH]; intros st tr Hs Ha Hlast Hlen; [inversion Hlen|].
  specialize (Hsus st tr Hs).
  pose proof (notify_active tr (tag st) Ha) as Hna.
  destruct (notify tr (tag st)) as [tr1|e] eqn:Hnot.
  2:{ rewrite (drive_error next tag fuel _ _ _ _ _ Hsus).
      rewrite (notify_raises _ _ _ Hnot). reflexivity. }
  destruct Hna as [Ha1 [Hnames [Hlt _]]].
  destruct (drive_cases next tag fuel st tr)
    as [[batch [st' [tr' [Hn [Hyd [Hed _]]]]]]|[[st' [tr' [Hn Hd]]]|[e [st' [tr' [Hn Hd]]]]]];
    rewrite Hn in Hsus; cbn [snd] in Hsus; subst tr'.
  - rewrite Hyd in Hlast, Hlen. cbn [map snd length] in Hlast, Hlen.
    rewrite Hed. apply IH.
    + apply (Hy _ _ _ _ _ Hn).
    + exact Ha1.
    + rewrite Hnames. exact Hlast.
    + lia.
  - rewrite Hd in Hlast. cbn in Hlast. lia.
  - rewrite Hd in Hlast. cbn in Hlast. lia.
Qed.

(** From a generator that has not started. *)
Lemma fresh_last_name (fuel : nat) (st : St) (tr : option Trainer) :
  suspended st = false -> active tr ->
  ended (drive next tag fuel st tr) = Completed ->
  yielded (drive next tag fuel st tr) <> [] ->
  exists t',
    final_trainer (drive next tag fuel st tr) = Some t' /\
    nth_error (names_of tr) (last (map snd (yielded (drive next tag fuel st tr))) O)
    = Some (dataset_name t').
Proof.
  intros Hs Ha He Hne. destruct fuel as [|fuel]; [discriminate He|].
  destruct Hres as [Hy [Hrun _]]. specialize (Hrun st tr Hs).
  destruct (drive_cases next tag fuel st tr)
    as [[batch [st' [tr' [Hn [Hyd [Hed Htd]]]]]]|[[st' [tr' [Hn Hd]]]|[e [st' [tr' [Hn Hd]]]]]];
    rewrite Hn in Hrun; cbn [snd] in Hrun; subst tr'.
  - rewrite Hed in He.
    destruct (drive_last_name fuel st' tr (Hy _ _ _ _ _ Hn) Ha He) as [t' [Hf Hl]].
    exists t'. rewrite Htd, Hyd. split; [exact Hf | exact Hl].
  - rewrite Hd in Hne. contradiction Hne. reflexivity.
  - rewrite Hd in He. discriminate He.
Qed.

Lemma fresh_named_before (fuel : nat) (st : St) (tr : option Trainer) :
  suspended st = false -> active tr ->
  Forall (fun i => (i < length (names_of tr))%nat)
         (removelast (map snd (yielded (drive next tag fuel st tr)))).
Proof.
  intros Hs Ha. destruct fuel as [|fuel]; [constructor|].
  destruct Hres as [Hy [Hrun _]]. specialize (Hrun st tr Hs).
  destruct (drive_cases next tag fuel st tr)
    as [[batch [st' [tr' [Hn [Hyd _]]]]]|[[st' [tr' [Hn Hd]]]|[e [st' [tr' [Hn Hd]]]]]];
    rewrite Hn in Hrun; cbn [snd] in Hrun; subst tr'.
  - rewrite Hyd. cbn [map snd].
    apply (drive_named_before fuel st' tr (Hy _ _ _ _ _ Hn) Ha).
  - rewrite Hd. constructor.
  - rewrite Hd. constructor.
Qed.

Lemma fresh_unnamed_fails (fuel : nat) (st : St) (tr : option Trainer) :
  suspended st = false -> active tr ->
  yielded (drive next tag fuel st tr) <> [] ->
  (length (names_of tr)
   <= last (map snd (yielded (drive next tag fuel st tr))) O)%nat ->
  (length (yielded (drive next tag fuel st tr)) < fuel)%nat ->
  ended (drive next tag fuel st tr) = Failed IndexError.
Proof.
  intros Hs Ha Hne Hlast Hlen. destruct fuel as [|fuel]; [inversion Hlen|].
  destruct Hres as [Hy [Hrun _]]. specialize (Hrun st tr Hs).
  destruct (drive_cases next tag fuel st tr)
    as [[batch [st' [tr' [Hn [Hyd [Hed _]]]]]]|[[st' [tr' [Hn Hd]]]|[e [st' [tr' [Hn Hd]]]]]];
    rewrite Hn in Hrun; cbn [snd] in Hrun; subst tr'.
  - rewrite Hyd in Hlast, Hlen. cbn [map snd length] in Hlast, Hlen.
    rewrite Hed. apply drive_unnamed_fails.
    + apply (Hy _ _ _ _ _ Hn).
    + exact Ha.
    + exact Hlast.
    + lia.
  - rewrite Hd in Hne. contradiction Hne. reflexivity.
  - rewrite Hd in Hne. contradiction Hne. reflexivity.
Qed.

End TrainerUpdates.

Lemma rr_resumes (G : Generator) (s : Sampler) :
  resumes_with_update (RoundRobinBatchSampler.next G s)
    RoundRobinBatchSampler.source rr_suspended.
Proof.
  split; [|split].
  - intros st tr batch st' tr' H.
    destruct st as [|g bss i|]; cbn [RoundRobinBatchSampler.next] in H.
    + destruct (manual_seed G (seed s + epoch s)) as [g0|e0]; [|discriminate H].
      destruct (make_batch_samplers s) as [[|b0 bss]|e]; try discriminate H.
      destruct (RoundRobinFacts.body_cases G s g0 (b0 :: bss) 0)
        as [[b [g' [b' E]]]|[E|E]];
        rewrite E in H; inversion H; reflexivity.
    + destruct (notify tr i) as [tr1|e]; [|discriminate H].
      destruct (RoundRobinFacts.body_cases G s g bss (S i mod length bss))
        as [[b [g' [b' E]]]|[E|E]]; rewrite E in H; inversion H; reflexivity.
    + discriminate H.
  - intros st tr Hs. destruct st as [|g bss i|]; [|discriminate Hs|reflexivity].
    cbn [RoundRobinBatchSampler.next].
    destruct (manual_seed G (seed s + epoch s)) as [g0|e0]; [|reflexivity].
    destruct (make_batch_samplers s) as [[|b0 bss]|e]; reflexivity.
  - intros st tr Hs. destruct st as [|g bss i|]; try discriminate Hs.
    cbn [RoundRobinBatchSampler.next RoundRobinBatchSampler.source].
    destruct (notify tr i) as [tr1|e]; reflexivity.
Qed.

Lemma prop_resumes (G : Generator) (s : Sampler) :
  resumes_with_update (ProportionalBatchSampler.next G s)
    ProportionalBatchSampler.source prop_suspended.
Proof.
  assert (Hbody : forall g bss draws batch st',
            ProportionalBatchSampler.body G s g bss draws = (Yield batch, st') ->
            prop_suspended st' = true).
  { intros g bss draws batch st' H. unfold ProportionalBatchSampler.body in H.
    destruct draws as [|i draws']; [discriminate H|].
    destruct (nth_error bss i) as [b|]; [|discriminate H].
    destruct (batcher_next G (shuffle s) (drop_last s) (Z.to_nat (batch_size s)) b g)
      as [[[batch0|] b'] g']; inversion H; reflexivity. }
  split; [|split].
  - intros st tr batch st' tr' H.
    destruct st as [|g bss draws i|]; cbn [ProportionalBatchSampler.next] in H.
    + destruct (manual_seed G (seed s + epoch s)) as [g0|e0]; [|discriminate H].
      destruct (make_batch_samplers s) as [bss|e]; [|discriminate H].
      destruct (SubsetRandomSampler_iter G 0%nat
                  (ProportionalBatchSampler.weighted
                     (ProportionalBatchSampler.batch_counts s))
                  g0) as [draws g].
      inversion H. eapply Hbody; eauto.
    + destruct (notify tr i) as [tr1|e]; [|discriminate H].
      inversion H. eapply Hbody; eauto.
    + discriminate H.
  - intros st tr Hs. destruct st as [|g bss draws i|]; [|discriminate Hs|reflexivity].
    cbn [ProportionalBatchSampler.next].
    destruct (manual_seed G (seed s + epoch s)) as [g0|e0]; [|reflexivity].
    destruct (make_batch_samplers s) as [bss|e]; [|reflexivity].
    destruct (SubsetRandomSampler_iter G 0%nat
                (ProportionalBatchSampler.weighted
                   (ProportionalBatchSampler.batch_counts s))
                g0) as [draws g].
    reflexivity.
  - intros st tr Hs. destruct st as [|g bss draws i|]; try discriminate Hs.
    cbn [ProportionalBatchSampler.next ProportionalBatchSampler.source].
    destruct (notify tr i) as [tr1|e]; reflexivity.
Qed.

(** X7: a pass of either sampler leaves the trainer's flag and name list
    as they were, writes nothing at all when there is no trainer or its
    flag is off, and otherwise changes only the name slot, wherever the
    pass stops. *)
Theorem pass_writes_only_the_slot (G : Generator) (s : Sampler) (fuel : nat)
    (tr : option Trainer) :
  only_slot_written tr (final_trainer (RoundRobinBatchSampler.pass G s fuel tr)) /\
  only_slot_written tr (final_trainer (ProportionalBatchSampler.pass G s fuel tr)).
Proof.
  split.
  - apply (drive_only_slot _ _ _ (rr_resumes G s)).
  - apply (drive_only_slot _ _ _ (prop_resumes G s)).
Qed.

(** X8: when a pass of either sampler, with a trainer whose flag is on, is
    driven until the generator stops and has yielded at least one batch,
    the name slot ends up holding the name of the dataset of the last
    batch yielded. *)
Theorem slot_names_last_batch (G : Generator) (s : Sampler) (fuel : nat)
    (tr : option Trainer) :
  active tr ->
  (ended (RoundRobinBatchSampler.pass G s fuel tr) = Completed ->
   yielded (RoundRobinBatchSampler.pass G s fuel tr) <> [] ->
   exists t',
     final_trainer (RoundRobinBatchSampler.pass G s fuel tr) = Some t' /\
     nth_error (names_of tr)
       (last (map snd (yielded (RoundRobinBatchSampler.pass G s fuel tr))) O)
     = Some (dataset_name t')) /\
  (ended (ProportionalBatchSampler.pass G s fuel tr) = Completed ->
   yielded (ProportionalBatchSampler.pass G s fuel tr) <> [] ->
   exists t',
     final_trainer (ProportionalBatchSampler.pass G s fuel tr) = Some t' /\
     nth_error (names_of tr)
       (last (map snd (yielded (ProportionalBatchSampler.pass G s fuel tr))) O)
     = Some (dataset_name t')).
Proof.
  intro Ha. split; intros He Hne.
  - apply (fresh_last_name _ _ _ (rr_resumes G s)); auto.
  - apply (fresh_last_name _ _ _ (prop_resumes G s)); auto.
Qed.

Lemma slot_names_last_batch_witness :
  exists t',
    final_trainer (RoundRobinBatchSampler.pass rotating
                     (built (construct [2; 2] 2 false 0 false None)) 5
                     (Some {| training_with_dataset_dict := true;
                              dataset_names := ["a"; "b"]%string;
                              dataset_name := "init"%string |})) = Some t' /\
    Some "b"%string = Some (dataset_name t').
Proof.
  refine (proj1 (slot_names_last_batch rotating
                   (built (construct [2; 2] 2 false 0 false None)) 5
                   (Some {| training_with_dataset_dict := true;
                            dataset_names := ["a"; "b"]%string;
                            dataset_name := "init"%string |}) _) _ _).
  - eexists. split; reflexivity.
  - reflexivity.
  - vm_compute. discriminate.
Defined.

(** X9: with a trainer whose flag is on, every batch a pass yields except
    possibly the last comes from a dataset that has a name; and when the
    last batch handed over comes from a dataset beyond the name list, the
    call that follows it raises [IndexError], so the pass fails and no
    further batch is yielded. *)
Theorem no_batch_after_unnamed_dataset (G : Generator) (s : Sampler) (fuel : nat)
    (tr : option Trainer) :
  active tr ->
  let checked (r : list (list Z * nat) * ending) :=
    Forall (fun i => (i < length (names_of tr))%nat) (removelast (map snd (fst r))) /\
    forall pre i,
      map snd (fst r) = pre ++ [i] ->
      (length (names_of tr) <= i)%nat ->
      (length (fst r) < fuel)%nat ->
      snd r = Failed IndexError in
  checked (yielded (RoundRobinBatchSampler.pass G s fuel tr),
           ended (RoundRobinBatchSampler.pass G s fuel tr)) /\
  checked (yielded (ProportionalBatchSampler.pass G s fuel tr),
           ended (ProportionalBatchSampler.pass G s fuel tr)).
Proof.
  intros Ha checked. split; unfold checked; cbn [fst snd]; split.
  - apply (fresh_named_before _ _ _ (rr_resumes G s)); auto.
  - intros pre i Htags Hi Hlen.
    apply (fresh_unnamed_fails _ _ _ (rr_resumes G s)); auto.
    + intro E. unfold RoundRobinBatchSampler.pass in Htags. rewrite E in Htags.
      destruct pre; discriminate Htags.
    + unfold RoundRobinBatchSampler.pass in Htags. rewrite Htags, last_last. exact Hi.
  - apply (fresh_named_before _ _ _ (prop_resumes G s)); auto.
  - intros pre i Htags Hi Hlen.
    apply (fresh_unnamed_fails _ _ _ (prop_resumes G s)); auto.
    + intro E. unfold ProportionalBatchSampler.pass in Htags. rewrite E in Htags.
      destruct pre; discriminate Htags.
    + unfold ProportionalBatchSampler.pass in Htags. rewrite Htags, last_last. exact Hi.
Qed.

Lemma no_batch_after_unnamed_dataset_witness :
  ended (RoundRobinBatchSampler.pass rotating
           (built (construct [4; 4; 4] 2 false 0 false None)) 9
           (Some {| training_with_dataset_dict := true;
                    dataset_names := ["a"]%string;
                    dataset_name := "init"%string |}))
  = Failed IndexError.
Proof.
  refine (proj2 (proj1 (no_batch_after_unnamed_dataset rotating
                   (built (construct [4; 4; 4] 2 false 0 false None)) 9
                   (Some {| training_with_dataset_dict := true;
                            dataset_names := ["a"]%string;
                            dataset_name := "init"%string |}) _))
            [0%nat] 1%nat _ _ _).
  - eexists. split; reflexivity.
  - reflexivity.
  - simpl. lia.
  - vm_compute. lia.
Defined.

(** ** What a pass yields from each dataset *)

Lemma batcher_next_yields (G : Generator) (sh dl : bool) (bsz : nat)
    (rng : list Z) (b b' : batcher) (ys : list (list Z)) (g g' : gstate G)
    (batch : list Z) :
  randperm_permutes G -> (0 < bsz)%nat ->
  dataset_inv sh dl bsz rng b ys ->
  batcher_next G sh dl bsz b g = (Some batch, b', g') ->
  dataset_inv sh dl bsz rng b' (ys ++ [batch]).
Proof.
  intros HG Hb Hinv Hnext.
  destruct (batcher_next_remaining G sh dl bsz b g HG Hb) as [[_ Hnone]|[b1 [b2 [g2 [_ Hs]]]]].
  - rewrite Hnext in Hnone. discriminate Hnone.
  - destruct (batcher_next_advances G sh dl bsz rng b ys g HG Hb Hinv ltac:(lia))
      as [batch1 [b1' [g1' [Hn [_ Hd]]]]].
    rewrite Hnext in Hn. inversion Hn; subst. exact Hd.
Qed.

Lemma batches_of_nil (i : nat) : batches_of i [] = [].
Proof. reflexivity. Qed.

Section Sound.

Variable G : Generator.
Variable s : Sampler.
Hypothesis HG : randperm_permutes G.
Hypothesis Hbs : 0 < batch_size s.

Lemma batchers_inv_initial :
  batchers_inv s (map (fun r : Z * Z => Fresh (fst r) (snd r)) (ranges s)) [].
Proof.
  split; [apply length_map|]. split; [constructor|].
  intros i a b bi Hr Hb.
  rewrite (map_nth_error _ _ _ Hr) in Hb. inversion Hb; subst bi. cbn [fst snd].
  exists (py_range a b). split; [reflexivity|]. split; [reflexivity|].
  rewrite batches_of_nil. cbn [length remaining Nat.add seq map].
  repeat split.
Qed.

Lemma batchers_inv_step (bss : list batcher) (out : list (list Z * nat)) (i : nat)
    (bi b' : batcher) (g g' : gstate G) (batch : list Z) :
  batchers_inv s bss out ->
  nth_error bss i = Some bi ->
  batcher_next G (shuffle s) (drop_last s) (Z.to_nat (batch_size s)) bi g
    = (Some batch, b', g') ->
  batchers_inv s (update i b' bss) (out ++ [(batch, i)]).
Proof.
  intros [Hlen [Htags Hinv]] Hbi Hnext.
  assert (Hi : (i < length bss)%nat) by (apply nth_error_Some; congruence).
  assert (Hbz : (0 < Z.to_nat (batch_size s))%nat) by lia.
  split; [rewrite update_length; exact Hlen|]. split.
  { apply Forall_app. split; [exact Htags|]. constructor; [|constructor].
    cbn [snd]. lia. }
  intros j a b bj Hrj Hbj.
  destruct (Nat.eq_dec i j) as [<-|Hne].
  - rewrite update_nth_same in Hbj by exact Hi. inversion Hbj; subst bj.
    rewrite batches_of_snoc_same.
    apply (batcher_next_yields G _ _ _ _ bi b' _ g g' batch HG Hbz
             (Hinv i a b bi Hrj Hbi) Hnext).
  - rewrite update_nth_other in Hbj by exact Hne.
    rewrite batches_of_snoc_other by exact Hne.
    apply (Hinv j a b bj Hrj Hbj).
Qed.

Lemma batchers_inv_served (bss : list batcher) (out : list (list Z * nat)) :
  batchers_inv s bss out -> served_in_order s out.
Proof.
  intros [Hlen [Htags Hinv]]. split; [exact Htags|].
  intros i a b Hr.
  destruct (nth_error bss i) as [bi|] eqn:Hb.
  2:{ apply nth_error_None in Hb.
      assert (i < length (ranges s))%nat by (apply nth_error_Some; congruence). lia. }
  destruct (Hinv i a b bi Hr Hb) as [p [Hp [Hsh [Hcount [Hys _]]]]].
  exists p. split; [exact Hp|]. split; [exact Hsh|]. split; [exact Hys | lia].
Qed.

Lemma served_nil : served_in_order s [].
Proof. apply (batchers_inv_served _ _ batchers_inv_initial). Qed.

Lemma rr_sound_served (st : RoundRobinBatchSampler.gen G) (tr : option Trainer)
    (out : list (list Z * nat)) :
  rr_sound G s st tr out -> served_in_order s out.
Proof.
  destruct st as [|g bss i|]; cbn [rr_sound].
  - intros ->. apply served_nil.
  - apply batchers_inv_served.
  - auto.
Qed.

Lemma rr_body_sound (g : gstate G) (bss : list batcher) (i : nat)
    (out : list (list Z * nat)) (batch : list Z)
    (st' : RoundRobinBatchSampler.gen G) (tr' : option Trainer) :
  batchers_inv s bss out ->
  RoundRobinBatchSampler.body G s g bss i = (Yield batch, st') ->
  rr_sound G s st' tr' (out ++ [(batch, RoundRobinBatchSampler.source st')]).
Proof.
  intros Hinv H. unfold RoundRobinBatchSampler.body in H.
  destruct (nth_error bss i) as [bi|] eqn:Hbi; [|discriminate H].
  destruct (batcher_next G (shuffle s) (drop_last s) (Z.to_nat (batch_size s)) bi g)
    as [[[batch0|] b'] g'] eqn:Hn; [|discriminate H].
  inversion H; subst. cbn [rr_sound RoundRobinBatchSampler.source].
  apply (batchers_inv_step bss out i bi b' g g' batch Hinv Hbi Hn).
Qed.

Lemma rr_sound_step (st : RoundRobinBatchSampler.gen G) (tr : option Trainer)
    (out : list (list Z * nat)) (batch : list Z)
    (st' : RoundRobinBatchSampler.gen G) (tr' : option Trainer) :
  rr_sound G s st tr out ->
  RoundRobinBatchSampler.next G s st tr = (Yield batch, st', tr') ->
  rr_sound G s st' tr' (out ++ [(batch, RoundRobinBatchSampler.source st')]).
Proof.
  intros Hinv H.
  destruct st as [|g bss i|]; cbn [RoundRobinBatchSampler.next rr_sound] in *.
  - subst out.
    destruct (manual_seed G (seed s + epoch s)) as [g0|e0]; [|discriminate H].
    rewrite make_batch_samplers_positive in H by exact Hbs.
    destruct (map (fun r : Z * Z => Fresh (fst r) (snd r)) (ranges s))
      as [|b0 bss] eqn:Hm; [discriminate H|].
    inversion H. subst tr'.
    eapply rr_body_sound; [|eassumption].
    rewrite <- Hm. apply batchers_inv_initial.
  - destruct (notify tr i) as [tr1|e]; [|discriminate H].
    inversion H. eapply rr_body_sound; eassumption.
  - discriminate H.
Qed.

Lemma prop_sound_served (st : ProportionalBatchSampler.gen G) (tr : option Trainer)
    (out : list (list Z * nat)) :
  prop_sound G s st tr out -> served_in_order s out.
Proof.
  destruct st as [|g bss draws i|]; cbn [prop_sound].
  - intros ->. apply served_nil.
  - apply batchers_inv_served.
  - auto.
Qed.

Lemma prop_body_sound (g : gstate G) (bss : list batcher) (draws : list nat)
    (out : list (list Z * nat)) (batch : list Z)
    (st' : ProportionalBatchSampler.gen G) (tr' : option Trainer) :
  batchers_inv s bss out ->
  ProportionalBatchSampler.body G s g bss draws = (Yield batch, st') ->
  prop_sound G s st' tr' (out ++ [(batch, ProportionalBatchSampler.source st')]).
Proof.
  intros Hinv H. unfold ProportionalBatchSampler.body in H.
  destruct draws as [|i draws']; [discriminate H|].
  destruct (nth_error bss i) as [bi|] eqn:Hbi; [|discriminate H].
  destruct (batcher_next G (shuffle s) (drop_last s) (Z.to_nat (batch_size s)) bi g)
    as [[[batch0|] b'] g'] eqn:Hn; [|discriminate H].
  inversion H; subst. cbn [prop_sound ProportionalBatchSampler.source].
  apply (batchers_inv_step bss out i bi b' g g' batch Hinv Hbi Hn).
Qed.

Lemma prop_sound_step (st : ProportionalBatchSampler.gen G) (tr : option Trainer)
    (out : list (list Z * nat)) (batch : list Z)
    (st' : ProportionalBatchSampler.gen G) (tr' : option Trainer) :
  prop_sound G s st tr out ->
  ProportionalBatchSampler.next G s st tr = (Yield batch, st', tr') ->
  prop_sound G s st' tr' (out ++ [(batch, ProportionalBatchSampler.source st')]).
Proof.
  intros Hinv H.
  destruct st as [|g bss draws i|]; cbn [ProportionalBatchSampler.next prop_sound] in *.
  - subst out.
    destruct (manual_seed G (seed s + epoch s)) as [g0|e0]; [|discriminate H].
    rewrite make_batch_samplers_positive in H by exact Hbs.
    destruct (SubsetRandomSampler_iter G 0%nat
                (ProportionalBatchSampler.weighted
                   (ProportionalBatchSampler.batch_counts s))
                g0) as [draws g].
    inversion H. subst tr'.
    eapply prop_body_sound; [|eassumption].
    apply batchers_inv_initial.
  - destruct (notify tr i) as [tr1|e]; [|discriminate H].
    inversion H. eapply prop_body_sound; eassumption.
  - discriminate H.
Qed.

End Sound.

Lemma rr_pass_served (G : Generator) (s : Sampler) (fuel : nat)
    (tr : option Trainer) :
  randperm_permutes G -> 0 < batch_size s ->
  served_in_order s (yielded (RoundRobinBatchSampler.pass G s fuel tr)).
Proof.
  intros HG Hbs.
  assert (HQ : forall st tr1 out, rr_sound G s st tr1 out -> served_in_order s out)
    by (intros st tr1 out H; eapply rr_sound_served; eauto).
  assert (Hstep : forall st tr1 out batch st' tr',
            rr_sound G s st tr1 out ->
            RoundRobinBatchSampler.next G s st tr1 = (Yield batch, st', tr') ->
            rr_sound G s st' tr' (out ++ [(batch, RoundRobinBatchSampler.source st')]))
    by (intros st tr1 out batch st' tr' H Hn; eapply rr_sound_step; eauto).
  exact (drive_invariant _ _ _ _ HQ Hstep fuel RoundRobinBatchSampler.Created tr []
           eq_refl).
Qed.

Lemma prop_pass_served (G : Generator) (s : Sampler) (fuel : nat)
    (tr : option Trainer) :
  randperm_permutes G -> 0 < batch_size s ->
  served_in_order s (yielded (ProportionalBatchSampler.pass G s fuel tr)).
Proof.
  intros HG Hbs.
  assert (HQ : forall st tr1 out, prop_sound G s st tr1 out -> served_in_order s out)
    by (intros st tr1 out H; eapply prop_sound_served; eauto).
  assert (Hstep : forall st tr1 out batch st' tr',
            prop_sound G s st tr1 out ->
            ProportionalBatchSampler.next G s st tr1 = (Yield batch, st', tr') ->
            prop_sound G s st' tr' (out ++ [(batch, ProportionalBatchSampler.source st')]))
    by (intros st tr1 out batch st' tr' H Hn; eapply prop_sound_step; eauto).
  exact (drive_invariant _ _ _ _ HQ Hstep fuel ProportionalBatchSampler.Created tr []
           eq_refl).
Qed.

(** X4: with a positive batch size, whatever either sampler has yielded
    from a dataset at any point of a pass is the first groups, in order
    and without gap or repetition, of one arrangement of that dataset's
    range (the ascending range itself without shuffling); no dataset is
    served more batches than it has, and every batch comes from an
    existing dataset. *)
Theorem datasets_served_in_order (G : Generator) (s : Sampler) (fuel : nat)
    (tr : option Trainer) :
  randperm_permutes G ->
  0 < batch_size s ->
  served_in_order s (yielded (RoundRobinBatchSampler.pass G s fuel tr)) /\
  served_in_order s (yielded (ProportionalBatchSampler.pass G s fuel tr)).
Proof.
  intros HG Hbs. split.
  - apply rr_pass_served; assumption.
  - apply prop_pass_served; assumption.
Qed.

Lemma datasets_served_in_order_witness :
  served_in_order (built (construct [5; 4] 2 true 0 true None))
    (yielded (RoundRobinBatchSampler.pass rotating
                (built (construct [5; 4] 2 true 0 true None)) 9 None)).
Proof.
  exact (proj1 (datasets_served_in_order rotating
                  (built (construct [5; 4] 2 true 0 true None)) 9 None
                  rotating_permutes ltac:(simpl; lia))).
Defined.

(** ** The indices of a pass *)

Lemma In_py_range (a b x : Z) : In x (py_range a b) <-> a <= x < b.
Proof.
  unfold py_range. rewrite in_map_iff. split.
  - intros [k [<- Hk]]. apply in_seq in Hk. lia.
  - intro H. exists (Z.to_nat (x - a)). split; [lia|]. apply in_seq. lia.
Qed.

Lemma py_range_NoDup (a b : Z) : NoDup (py_range a b).
Proof.
  unfold py_range. apply NoDup_map_NoDup_ForallPairs; [|apply seq_NoDup].
  intros x y _ _ H. lia.
Qed.

Lemma py_range_app (a b c : Z) :
  a <= b <= c -> py_range a b ++ py_range b c = py_range a c.
Proof.
  intro H. unfold py_range.
  replace (Z.to_nat (c - a)) with (Z.to_nat (b - a) + Z.to_nat (c - b))%nat by lia.
  rewrite seq_app, map_app. f_equal.
  rewrite (map_seq_offset _ (0 + Z.to_nat (b - a))).
  apply map_ext. intro k. lia.
Qed.

Lemma In_firstn_list {A : Type} (n : nat) (l : list A) (x : A) :
  In x (firstn n l) -> In x l.
Proof.
  intro H. rewrite <- (firstn_skipn n l). apply in_or_app. left. exact H.
Qed.

Lemma In_skipn_list {A : Type} (n : nat) (l : list A) (x : A) :
  In x (skipn n l) -> In x l.
Proof.
  intro H. rewrite <- (firstn_skipn n l). apply in_or_app. right. exact H.
Qed.

Lemma NoDup_firstn_list {A : Type} (n : nat) (l : list A) :
  NoDup l -> NoDup (firstn n l).
Proof.
  intro H. rewrite <- (firstn_skipn n l) in H.
  apply NoDup_app_remove_r in H. exact H.
Qed.

Lemma firstn_plus {A : Type} (a b : nat) (l : list A) :
  firstn (a + b) l = firstn a l ++ firstn b (skipn a l).
Proof.
  revert l. induction a as [|a IH]; intro l; [reflexivity|].
  destruct l as [|x r]; [destruct b; reflexivity|].
  cbn [Nat.add firstn skipn app]. f_equal. apply IH.
Qed.

Lemma concat_groups (bsz : nat) (p : list Z) (k : nat) :
  concat (map (group_at bsz p) (seq 0 k)) = firstn (k * bsz) p.
Proof.
  induction k as [|k IH]; [reflexivity|].
  rewrite seq_S, map_app, concat_app, IH. cbn [map concat Nat.add].
  rewrite app_nil_r. unfold group_at.
  replace (S k * bsz)%nat with (k * bsz + bsz)%nat by lia.
  symmetry. apply firstn_plus.
Qed.

Lemma flat_map_seq_S {A : Type} (f : nat -> list A) (n : nat) :
  flat_map f (seq 0 (S n)) = flat_map f (seq 0 n) ++ f n.
Proof.
  rewrite seq_S, flat_map_app. cbn [flat_map Nat.add]. rewrite app_nil_r. reflexivity.
Qed.

Lemma flat_map_seq_ext {A : Type} (f h : nat -> list A) (n : nat) :
  (forall i, (i < n)%nat -> f i = h i) ->
  flat_map f (seq 0 n) = flat_map h (seq 0 n).
Proof.
  induction n as [|n IH]; intro H; [reflexivity|].
  rewrite !flat_map_seq_S, IH, (H n) by (intros; try apply H; lia). reflexivity.
Qed.

Lemma flat_map_seq_perm {A : Type} (f h : nat -> list A) (n : nat) :
  (forall i, (i < n)%nat -> Permutation (f i) (h i)) ->
  Permutation (flat_map f (seq 0 n)) (flat_map h (seq 0 n)).
Proof.
  induction n as [|n IH]; intro H; [reflexivity|].
  rewrite !flat_map_seq_S. apply Permutation_app.
  - apply IH. intros i Hi. apply H. lia.
  - apply H. lia.
Qed.

Lemma flat_map_seq_NoDup {A : Type} (f : nat -> list A) (n : nat) :
  (forall i, (i < n)%nat -> NoDup (f i)) ->
  (forall i j x, (i < j)%nat -> (j < n)%nat -> In x (f i) -> ~ In x (f j)) ->
  NoDup (flat_map f (seq 0 n)).
Proof.
  induction n as [|n IH]; intros Hnd Hdis; [constructor|].
  rewrite flat_map_seq_S. apply NoDup_app.
  - apply IH; [intros i Hi; apply Hnd; lia|].
    intros i j x Hij Hj. apply Hdis; lia.
  - apply Hnd. lia.
  - intros x Hx. apply in_flat_map in Hx. destruct Hx as [i [Hi Hin]].
    apply in_seq in Hi. apply (Hdis i n x); [lia | lia | exact Hin].
Qed.

Lemma batches_of_cons_same (i : nat) (b : list Z) (r : list (list Z * nat)) :
  batches_of i ((b, i) :: r) = b :: batches_of i r.
Proof. unfold batches_of. cbn [filter snd]. rewrite Nat.eqb_refl. reflexivity. Qed.

Lemma batches_of_cons_other (i t : nat) (b : list Z) (r : list (list Z * nat)) :
  t <> i -> batches_of i ((b, t) :: r) = batches_of i r.
Proof.
  intro H. unfold batches_of. cbn [filter snd].
  destruct (Nat.eqb_spec t i) as [E|_]; [contradiction | reflexivity].
Qed.

Lemma by_dataset_cons_beyond (n t : nat) (b : list Z) (r : list (list Z * nat)) :
  (n <= t)%nat -> by_dataset n ((b, t) :: r) = by_dataset n r.
Proof.
  intro H. unfold by_dataset. apply flat_map_seq_ext. intros i Hi.
  rewrite batches_of_cons_other by lia. reflexivity.
Qed.

Lemma by_dataset_cons_within (n t : nat) (b : list Z) (r : list (list Z * nat)) :
  (t < n)%nat -> Permutation (by_dataset n ((b, t) :: r)) (b ++ by_dataset n r).
Proof.
  induction n as [|n IH]; intro Ht; [lia|].
  unfold by_dataset in *. rewrite !flat_map_seq_S.
  destruct (Nat.eq_dec t n) as [->|Hne].
  - fold (by_dataset n ((b, n) :: r)). fold (by_dataset n r).
    rewrite by_dataset_cons_beyond by lia.
    rewrite batches_of_cons_same. cbn [concat].
    apply Permutation_app_swap_app.
  - rewrite (batches_of_cons_other n t) by exact Hne.
    rewrite app_assoc. apply Permutation_app_tail. apply IH. lia.
Qed.

Lemma by_dataset_nil (n : nat) : by_dataset n [] = [].
Proof.
  unfold by_dataset. induction n as [|n IH]; [reflexivity|].
  rewrite flat_map_seq_S, IH. reflexivity.
Qed.

Lemma indices_by_dataset (n : nat) (out : list (list Z * nat)) :
  Forall (fun x => (snd x < n)%nat) out ->
  Permutation (indices_of out) (by_dataset n out).
Proof.
  induction 1 as [|[b t] r Ht _ IH].
  - rewrite by_dataset_nil. reflexivity.
  - cbn [snd] in Ht. unfold indices_of in *. cbn [map fst concat].
    rewrite (by_dataset_cons_within n t b r Ht).
    apply Permutation_app_head. exact IH.
Qed.

Lemma In_batches_of (i : nat) (out : list (list Z * nat)) (batch : list Z) :
  In (batch, i) out -> In batch (batches_of i out).
Proof.
  intro H. unfold batches_of.
  apply (in_map fst _ (batch, i)). apply filter_In. split; [exact H|].
  cbn [snd]. apply Nat.eqb_refl.
Qed.

(** The indices yielded from one dataset so far: an initial part of one
    arrangement of its range. *)
Lemma served_piece (s : Sampler) (out : list (list Z * nat)) (i : nat) (a b : Z) :
  served_in_order s out ->
  nth_error (ranges s) i = Some (a, b) ->
  NoDup (concat (batches_of i out)) /\
  (forall z, In z (concat (batches_of i out)) -> a <= z < b).
Proof.
  intros [_ Hs] Hr. destruct (Hs i a b Hr) as [p [Hp [_ [Hys _]]]].
  rewrite Hys, concat_groups. split.
  - apply NoDup_firstn_list.
    apply (Permutation_NoDup (Permutation_sym Hp)). apply py_range_NoDup.
  - intros z Hz. apply In_firstn_list in Hz.
    apply In_py_range. apply (Permutation_in _ Hp). exact Hz.
Qed.

(** X5: for non-negative lengths and a positive batch size, every index
    in a batch lies in the range of the dataset the batch was pulled
    from, and no index is yielded twice in a pass, by either sampler,
    wherever the pass stops. *)
Theorem no_index_twice (G : Generator) (ls : list Z) (bs : Z) (dl sh : bool)
    (sd e : Z) (tr0 tr : option Trainer) (s : Sampler) (fuel : nat) :
  randperm_permutes G ->
  0 < bs ->
  Forall (fun x => 0 <= x) ls ->
  construct ls bs dl sd sh tr0 = Ok s ->
  let sound out :=
    NoDup (indices_of out) /\
    forall batch t z,
      In (batch, t) out -> In z batch ->
      exists a b, nth_error (ranges s) t = Some (a, b) /\ a <= z < b in
  sound (yielded (RoundRobinBatchSampler.pass G (with_epoch s e) fuel tr)) /\
  sound (yielded (ProportionalBatchSampler.pass G (with_epoch s e) fuel tr)).
Proof.
  intros HG Hbs Hpos Hc sound.
  assert (Hs' : 0 < batch_size (with_epoch s e)) by (inversion Hc; subst; exact Hbs).
  assert (Hr' : ranges (with_epoch s e) = ranges s) by reflexivity.
  pose proof (construct_ranges ls bs dl sd sh tr0 s Hc) as Hpart.
  assert (Hgen : forall out, served_in_order (with_epoch s e) out -> sound out).
  { intros out Hserved. pose proof Hserved as [Htags _]. rewrite Hr' in Htags.
    split.
    - apply (Permutation_NoDup (Permutation_sym (indices_by_dataset _ _ Htags))).
      unfold by_dataset. apply flat_map_seq_NoDup.
      + intros i Hi.
        destruct (nth_error (ranges s) i) as [[a b]|] eqn:Hr;
          [|apply nth_error_None in Hr; lia].
        apply (served_piece _ _ i a b Hserved Hr).
      + intros i j x Hij Hj Hi Hx.
        destruct (nth_error (ranges s) i) as [[a b]|] eqn:Hri;
          [|apply nth_error_None in Hri; lia].
        destruct (nth_error (ranges s) j) as [[c d]|] eqn:Hrj;
          [|apply nth_error_None in Hrj; lia].
        apply (served_piece _ _ i a b Hserved Hri) in Hi.
        apply (served_piece _ _ j c d Hserved Hrj) in Hx.
        rewrite Hpart in Hri, Hrj.
        apply partition_nth_inv in Hri. apply partition_nth_inv in Hrj.
        destruct Hri as [_ [_ ->]]. destruct Hrj as [_ [-> _]].
        pose proof (prefix_mono ls (S i) j Hpos ltac:(lia)). lia.
    - intros batch t z Hin Hz.
      rewrite Forall_forall in Htags. pose proof (Htags _ Hin) as Ht. cbn [snd] in Ht.
      destruct (nth_error (ranges s) t) as [[a b]|] eqn:Hr;
        [|apply nth_error_None in Hr; lia].
      exists a, b. split; [reflexivity|].
      apply (served_piece _ _ t a b Hserved Hr).
      apply in_concat. exists batch. split; [apply In_batches_of; exact Hin | exact Hz]. }
  split; apply Hgen.
  - apply rr_pass_served; assumption.
  - apply prop_pass_served; assumption.
Qed.

Lemma no_index_twice_witness :
  NoDup (indices_of (yielded (RoundRobinBatchSampler.pass rotating
                       (with_epoch (built (construct [5; 4] 2 true 0 true None)) 2)
                       9 None))).
Proof.
  exact (proj1 (proj1 (no_index_twice rotating [5; 4] 2 true true 0 2 None None
                         (built (construct [5; 4] 2 true 0 true None)) 9
                         rotating_permutes ltac:(lia)
                         ltac:(repeat constructor; lia) eq_refl))).
Defined.

Lemma group_count_covers (bsz n : nat) :
  (0 < bsz)%nat -> (n <= group_count false bsz n * bsz)%nat.
Proof.
  intro Hb. unfold group_count.
  pose proof (Nat.div_mod_eq (n + bsz - 1) bsz) as E.
  pose proof (Nat.mod_upper_bound (n + bsz - 1) bsz ltac:(lia)) as B.
  nia.
Qed.

Lemma prefix_ranges_concat (ls : list Z) (k : nat) :
  Forall (fun x => 0 <= x) ls ->
  flat_map (fun i => py_range (py_sum (firstn i ls)) (py_sum (firstn (S i) ls)))
           (seq 0 k)
  = py_range 0 (py_sum (firstn k ls)).
Proof.
  intro Hpos. induction k as [|k IH]; [reflexivity|].
  rewrite flat_map_seq_S, IH. apply py_range_app.
  pose proof (prefix_mono ls 0 k Hpos ltac:(lia)) as H0.
  pose proof (prefix_step ls k Hpos) as H1.
  cbn [firstn] in H0. unfold py_sum at 1 in H0. cbn [fold_left] in H0. lia.
Qed.

(** X2: for non-negative lengths, a positive batch size, drop_last off, a
    seed + epoch the generator accepts and a trainer whose update cannot
    fail, the indices of one full proportional pass are exactly the
    indices [0, sum(lengths)), each once. *)
Theorem proportional_visits_every_index (G : Generator) (ls : list Z) (bs : Z)
    (sh : bool) (sd e : Z) (tr0 tr : option Trainer) (s : Sampler) (fuel : nat) :
  randperm_permutes G ->
  0 < bs ->
  Forall (fun x => 0 <= x) ls ->
  ProportionalBatchSampler.__init__ ls bs false sd sh tr0 = Ok s ->
  seed_accepted (sd + e) = true ->
  notifier_safe (length ls) tr = true ->
  (Z.to_nat (py_sum (map (BatchSampler_len false bs) ls)) < fuel)%nat ->
  Permutation
    (indices_of (yielded (ProportionalBatchSampler.pass G
                            (ProportionalBatchSampler.set_epoch s e) fuel tr)))
    (py_range 0 (py_sum ls)).
Proof.
  intros HG Hbs Hpos Hc Hseed Hsafe Hfuel.
  destruct (constructed_pass_covers G ls bs false sh sd e tr0 tr s fuel
              HG Hbs Hpos Hc Hseed Hsafe Hfuel) as [_ [_ [_ Hall]]].
  change (with_epoch s e) with (ProportionalBatchSampler.set_epoch s e) in Hall.
  set (s' := ProportionalBatchSampler.set_epoch s e) in *.
  assert (Hs' : 0 < batch_size s') by (inversion Hc; subst; exact Hbs).
  destruct (prop_pass_served G s' fuel tr HG Hs') as [Htags _].
  assert (Hr : ranges s' = partition ls)
    by (apply (construct_ranges ls bs false sd sh tr0 s Hc)).
  rewrite Hr, partition_length in Htags.
  rewrite (indices_by_dataset _ _ Htags).
  rewrite <- (firstn_all ls) at 2.
  rewrite <- (prefix_ranges_concat ls (length ls) Hpos).
  unfold by_dataset. apply flat_map_seq_perm. intros i Hi.
  pose proof (partition_nth ls i Hi) as Hn. rewrite <- Hr in Hn.
  destruct (Hall i _ _ Hn) as [p [Hp [_ Hys]]].
  rewrite Hys, concat_groups, firstn_all2; [exact Hp|].
  rewrite (Permutation_length Hp).
  apply group_count_covers. lia.
Qed.

Lemma proportional_visits_every_index_witness :
  Permutation
    (indices_of (yielded (ProportionalBatchSampler.pass rotating
       (ProportionalBatchSampler.set_epoch
          (built (construct [4; 5] 2 false 0 true None)) 3) 9 None)))
    (py_range 0 (py_sum [4; 5])).
Proof.
  exact (proportional_visits_every_index rotating [4; 5] 2 true 0 3 None None
           (built (construct [4; 5] 2 false 0 true None)) 9
           rotating_permutes ltac:(lia) ltac:(repeat constructor; lia)
           eq_refl eq_refl eq_refl ltac:(vm_compute; lia)).
Defined.

(** ** Round-robin: each dataset's share of a pass *)

Lemma batches_of_count (i : nat) (out : list (list Z * nat)) :
  length (batches_of i out) = count_occ Nat.eq_dec (map snd out) i.
Proof.
  unfold batches_of. rewrite length_map.
  induction out as [|[b t] r IH]; [reflexivity|].
  cbn [filter map snd count_occ].
  destruct (Nat.eqb_spec t i) as [E|E], (Nat.eq_dec t i) as [E'|E'];
    try contradiction; cbn [length]; rewrite IH; reflexivity.
Qed.

Lemma count_occ_seq (i j : nat) :
  count_occ Nat.eq_dec (seq 0 j) i = if (i <? j)%nat then 1%nat else 0%nat.
Proof.
  destruct (Nat.ltb_spec i j) as [H|H].
  - apply NoDup_count_occ'; [apply seq_NoDup | apply in_seq; lia].
  - apply count_occ_not_In. rewrite in_seq. lia.
Qed.

Lemma rotation_small (n j : nat) :
  (j <= n)%nat -> map (rotation n) (seq 0 j) = seq 0 j.
Proof.
  intro H. rewrite <- (map_id (seq 0 j)) at 2. apply map_ext_in.
  intros k Hk. apply in_seq in Hk. unfold rotation. apply Nat.mod_small. lia.
Qed.

Lemma rotation_count (n i j m : nat) :
  (i < n)%nat -> (j < n)%nat ->
  count_occ Nat.eq_dec (map (rotation n) (seq 0 (m * n + j))) i
  = (m + if (i <? j)%nat then 1 else 0)%nat.
Proof.
  intros Hi Hj. induction m as [|m IH].
  - cbn [Nat.mul Nat.add]. rewrite rotation_small by lia. apply count_occ_seq.
  - replace (S m * n + j)%nat with (n + (m * n + j))%nat by lia.
    rewrite seq_app, map_app, count_occ_app.
    rewrite rotation_small by lia. rewrite count_occ_seq.
    destruct (Nat.ltb_spec i n) as [_|H]; [|lia].
    rewrite (map_seq_offset (rotation n) (0 + n)).
    rewrite (map_ext (fun k => rotation n (0 + n + k)) (rotation n)).
    + rewrite IH. lia.
    + intro k. unfold rotation.
      replace (0 + n + k)%nat with (k + 1 * n)%nat by lia.
      apply Nat.Div0.mod_add.
Qed.

(** X11: under the conditions of the count of a round-robin pass (among
    them a seed + epoch the generator accepts), with [m]
    the least batch count and [j] the first dataset that has it, the
    datasets before [j] are served [m + 1] batches and the others [m]:
    what a dataset holds beyond that is not yielded in this pass. *)
Theorem round_robin_share (G : Generator) (ls : list Z) (bs : Z)
    (dl sh : bool) (sd e : Z) (tr0 tr : option Trainer) (s : Sampler)
    (fuel : nat) (m : Z) (j i : nat) :
  randperm_permutes G ->
  0 < bs ->
  Forall (fun x => 0 <= x) ls ->
  RoundRobinBatchSampler.__init__ ls bs dl sd sh tr0 = Ok s ->
  seed_accepted (sd + e) = true ->
  notifier_safe (length ls) tr = true ->
  (j < length ls)%nat ->
  BatchSampler_len dl bs (nth j ls 0) = m ->
  (forall k, (k < length ls)%nat -> m <= BatchSampler_len dl bs (nth k ls 0)) ->
  (forall k, (k < j)%nat -> m < BatchSampler_len dl bs (nth k ls 0)) ->
  (Z.to_nat m * length ls + j < fuel)%nat ->
  (i < length ls)%nat ->
  Z.of_nat (length (batches_of i
     (yielded (RoundRobinBatchSampler.pass G (RoundRobinBatchSampler.set_epoch s e) fuel tr))))
  = m + (if (i <? j)%nat then 1 else 0).
Proof.
  intros HG Hbs Hpos Hc Hseed Hsafe Hj Hm Hlow Hfirst Hfuel Hi.
  destruct (rr_pass_count G ls bs dl sh sd e tr0 tr s fuel m j
              HG Hbs Hpos Hc Hseed Hsafe Hj Hm Hlow Hfirst Hfuel) as [_ Hlen].
  assert (Hm0 : 0 <= m).
  { subst m. apply BatchSampler_len_nonneg; [exact Hbs|].
    rewrite Forall_forall in Hpos. apply Hpos. apply nth_In. exact Hj. }
  rewrite batches_of_count, RoundRobinFacts.tags_of_pass.
  assert (Hn : length (ranges (RoundRobinBatchSampler.set_epoch s e)) = length ls)
    by (apply (construct_ranges_length ls bs dl sd sh tr0 s Hc)).
  rewrite Hn.
  replace (length (yielded (RoundRobinBatchSampler.pass G
                              (RoundRobinBatchSampler.set_epoch s e) fuel tr)))
    with (Z.to_nat m * length ls + j)%nat by nia.
  rewrite rotation_count by assumption.
  destruct (i <? j)%nat; lia.
Qed.

Lemma round_robin_share_witness :
  Z.of_nat (length (batches_of 0
     (yielded (RoundRobinBatchSampler.pass rotating
        (RoundRobinBatchSampler.set_epoch (built (construct [6; 4] 2 false 0 true None)) 1)
        6 None))))
  = 2 + 1.
Proof.
  refine (round_robin_share rotating [6; 4] 2 false true 0 1 None None
            (built (construct [6; 4] 2 false 0 true None)) 6 2 1 0
            rotating_permutes _ _ eq_refl eq_refl eq_refl _ eq_refl _ _ _ _).
  - lia.
  - repeat constructor; lia.
  - simpl; lia.
  - intros k Hk. destruct k as [|[|k]];
      [vm_compute; discriminate | vm_compute; discriminate | simpl in Hk; lia].
  - intros k Hk. destruct k as [|k]; [vm_compute; reflexivity | lia].
  - vm_compute. lia.
  - simpl; lia.
Defined.
